(** * The judge runner and the submission lock of library-checker-judge

    A shallow embedding of [src/judge/judge.go]: the stderr capper
    ([outputStripper]), the sandbox client ([SafeRun]), the verdict logic
    ([TestCase], [AggregateResults]) and the lease on a submission
    ([TryLockSubmission], [UnlockSubmission]), then the language table
    ([init]), the compile steps ([CompileSource], [CompileChecker]) and
    [FetchTestcaseResults], followed by the properties proved about them.

    Conventions.
    - Go's [int] and [int32] are [Z]; the code only compares them, except in
      [Write], where the guard [N > 20] keeps both subtractions inside the
      64-bit range (lemma [Write_arith_in_range]).
    - Go's [float64] is the kernel's binary64 [float]; [<] is [PrimFloat.ltb].
    - [[]byte] is [list byte], a Go [string] is [string], an [error] is its
      message, [nil] is [None].
    - A call that leaves the program (a file operation, the executor process,
      the database) is answered by a field of a record of outcomes, one record
      per call of the embedded function; the theorems quantify over them.
    - A run-time panic is the result [Panic]. *)

From Stdlib Require Import ZArith List String Floats Lia Bool.
From Stdlib.Strings Require Import Byte.
From stdpp Require Import base option list gmap strings sorting.

Local Open Scope string_scope.
Local Open Scope list_scope.
Local Open Scope Z_scope.

(** ** Go results *)

Definition error := string.

(** A Go call either returns or panics. *)
Inductive go (A : Type) : Type :=
  | Ret (a : A)
  | Panic (msg : string).
Arguments Ret {A} a.
Arguments Panic {A} msg.

#[global] Instance go_ret : MRet go := fun A a => Ret a.

#[global] Instance go_bind : MBind go := fun A B k m =>
  match m with
  | Ret a => k a
  | Panic msg => Panic msg
  end.

(** ** outputStripper (judge.go, lines 21-51) *)

Module Stripper.

Record outputStripper := {
  N : Z;
  data : list byte;
  overflow : bool
}.

Definition len {A} (l : list A) : Z := Z.of_nat (length l).

(** [b[:add]]: the slice expression panics when [add] is negative ([add] never
    exceeds [len(b)] where the code takes it). *)
Definition slice_to {A} (b : list A) (add : Z) : go (list A) :=
  if add <? 0 then Panic "slice bounds out of range"
  else Ret (take (Z.to_nat add) b).

(** The returned pair is [(n, err)]. *)
Definition Write (os : outputStripper) (b : list byte)
  : go (outputStripper * (Z * option error)) :=
  if N os <=? 20 then Ret (os, (-1, Some "N is too small"))
  else
    let blen := len b in
    let cap := N os - 20 - len (data os) in
    let '(add, ov) :=
      if cap <? blen then (cap, true) else (blen, overflow os) in
    kept ← slice_to b add;
    Ret ({| N := N os; data := data os ++ kept; overflow := ov |},
         (blen, None)).

Definition stripped : list byte := list_byte_of_string " ... stripped".

Definition Bytes (os : outputStripper) : list byte :=
  data os ++ (if overflow os then stripped else []).

(** [&outputStripper{N: n}] *)
Definition new (n : Z) : outputStripper :=
  {| N := n; data := []; overflow := false |}.

(** A sequence of writes: a failed write (the [N <= 20] error) stops the
    copying, as an [io.Writer]'s error does. *)
Fixpoint write_all (os : outputStripper) (ws : list (list byte))
  : go (outputStripper * option error) :=
  match ws with
  | [] => Ret (os, None)
  | b :: ws' =>
      r ← Write os b;
      match r with
      | (os', (_, Some e)) => Ret (os', Some e)
      | (os', (_, None)) => write_all os' ws'
      end
  end.

End Stripper.

(** ** Result and SafeRun (judge.go, lines 53-103) *)

Record Result := {
  ReturnCode : Z;
  Time : float;
  Memory : Z;
  Tle : bool;
  Stderr : list byte
}.

(** [Result{}] *)
Definition Result_zero : Result :=
  {| ReturnCode := 0; Time := 0%float; Memory := 0; Tle := false; Stderr := [] |}.

(** [Result{ReturnCode: -1, Time: -1, Memory: -1}] *)
Definition Result_failed : Result :=
  {| ReturnCode := -1; Time := (-1)%float; Memory := -1; Tle := false;
     Stderr := [] |}.

(** What [cmd.Run()] did, after os/exec: either no process state was recorded
    (the start or the wait failed: [cmd.ProcessState] stays nil), or the
    process was waited for and [ExitCode()] is [code] (-1 when a signal killed
    it), with the error of the output copying, if any. *)
Inductive RunOutcome :=
  | NoProcessState (e : error)
  | Exited (code : Z) (copy_err : option error).

(** The error [cmd.Run()] returns: an [ExitError] for a non-zero exit,
    otherwise the copying error. *)
Definition Run_err (o : RunOutcome) : option error :=
  match o with
  | NoProcessState e => Some e
  | Exited code copy_err =>
      if code =? 0 then copy_err else Some "exit status"
  end.

(** [cmd.ProcessState] after the call; [None] is nil. *)
Definition ProcessState_of (o : RunOutcome) : option Z :=
  match o with
  | NoProcessState _ => None
  | Exited code _ => Some code
  end.

(** [ExitCode()] of a process state: -1 on a nil receiver. *)
Definition ExitCode (ps : option Z) : Z :=
  match ps with
  | Some code => code
  | None => -1
  end.

(** The outcomes of the external calls of one [SafeRun]. *)
Record Exec := {
  temp_file : option error;          (* ioutil.TempFile *)
  look_path : option error;          (* exec.LookPath of the executor *)
  run : RunOutcome;                  (* cmd.Run() *)
  stderr_writes : list (list byte);  (* the writes that reach the capper *)
  read_file : option error;          (* ioutil.ReadFile(tmpfile.Name()) *)
  unmarshal : error + Result         (* json.Unmarshal(raw, &result) *)
}.

(** The third component is [cmd.ProcessState] as the call leaves it, which
    [TestCase] reads. The argument vector built for the executor and the log
    lines have no part in the returned values and are left out. *)
Definition SafeRun (x : Exec) : go (Result * option error * option Z) :=
  match temp_file x with
  | Some err => Ret (Result_zero, Some err, None)
  | None =>
  match look_path x with
  | Some err => Ret (Result_zero, Some err, None)
  | None =>
      let os := Stripper.new (Z.shiftl 1 11) in
      captured ← Stripper.write_all os (stderr_writes x);
      let os := fst captured in
      let ps := ProcessState_of (run x) in
      let read_result :=
        match read_file x with
        | Some err => Ret (Result_zero, Some err, ps)
        | None =>
        match unmarshal x with
        | inl err => Ret (Result_zero, Some err, ps)
        | inr result =>
            Ret ({| ReturnCode := ReturnCode result; Time := Time result;
                    Memory := Memory result; Tle := Tle result;
                    Stderr := Stripper.Bytes os |}, None, ps)
        end
        end in
      match Run_err (run x) with
      | Some err =>
          if negb (ExitCode ps =? 124)
          then Ret (Result_failed, Some err, ps)
          else read_result
      | None => read_result
      end
  end
  end.

(** ** CaseResult and AggregateResults (judge.go, lines 219-242) *)

(** The embedded [Result] is the field [EmbeddedResult]; Go promotes its
    fields, so [ans.Time] is [Time (EmbeddedResult ans)]. *)
Record CaseResult := {
  CaseName : string;
  Status : string;
  EmbeddedResult : Result
}.

(** [CaseResult{}] *)
Definition CaseResult_zero : CaseResult :=
  {| CaseName := ""; Status := ""; EmbeddedResult := Result_zero |}.

Definition set_Status (s : string) (c : CaseResult) : CaseResult :=
  {| CaseName := CaseName c; Status := s; EmbeddedResult := EmbeddedResult c |}.

Definition set_Time (t : float) (c : CaseResult) : CaseResult :=
  let r := EmbeddedResult c in
  {| CaseName := CaseName c; Status := Status c;
     EmbeddedResult :=
       {| ReturnCode := ReturnCode r; Time := t; Memory := Memory r;
          Tle := Tle r; Stderr := Stderr r |} |}.

Definition set_Memory (m : Z) (c : CaseResult) : CaseResult :=
  let r := EmbeddedResult c in
  {| CaseName := CaseName c; Status := Status c;
     EmbeddedResult :=
       {| ReturnCode := ReturnCode r; Time := Time r; Memory := m;
          Tle := Tle r; Stderr := Stderr r |} |}.

(** One iteration of the loop of [AggregateResults]. *)
Definition AggregateResults_body (ans res : CaseResult) : CaseResult :=
  let ans :=
    if negb (String.eqb (Status res) "AC") then set_Status (Status res) ans
    else ans in
  let ans :=
    if PrimFloat.ltb (Time (EmbeddedResult ans)) (Time (EmbeddedResult res))
    then set_Time (Time (EmbeddedResult res)) ans
    else ans in
  if Memory (EmbeddedResult ans) <? Memory (EmbeddedResult res)
  then set_Memory (Memory (EmbeddedResult res)) ans
  else ans.

Definition AggregateResults (results : list CaseResult) : CaseResult :=
  fold_left AggregateResults_body results
    {| CaseName := ""; Status := "AC"; EmbeddedResult := Result_failed |}.

(** ** Judge.TestCase (judge.go, lines 244-323) *)

(** The outcomes of the external calls of one [TestCase]. *)
Record Case := {
  create_input : option error;   (* os.Create of checker/input.in *)
  copy_input : option error;     (* io.Copy(input, inFile) *)
  seek_input : option error;     (* input.Seek(0, 0) *)
  create_expect : option error;  (* os.Create of checker/expect.out *)
  copy_expect : option error;    (* io.Copy(expect, expectFile) *)
  close_expect : option error;   (* expect.Close() *)
  create_actual : option error;  (* os.Create of checker/actual.out *)
  exec_fields : list string;     (* strings.Fields(j.lang.Exec) *)
  submission : Exec;             (* SafeRun of the submission *)
  checker : Exec                 (* SafeRun of ./checker *)
}.

(** [if err != nil { return CaseResult{}, err }] *)
Definition or_return (e : option error)
    (k : go (CaseResult * option error)) : go (CaseResult * option error) :=
  match e with
  | Some err => Ret (CaseResult_zero, Some err)
  | None => k
  end.

Notation "'check' e ; k" := (or_return e k)
  (at level 20, e at level 9, k at level 200, only parsing).

Definition verdict (s : string) (result : Result) : CaseResult :=
  {| CaseName := ""; Status := s; EmbeddedResult := result |}.

Definition TestCase (w : Case) : go (CaseResult * option error) :=
  check (create_input w);
  check (copy_input w);
  check (seek_input w);
  check (create_expect w);
  check (copy_expect w);
  check (close_expect w);
  check (create_actual w);
  match exec_fields w with
  | [] => Panic "slice bounds out of range [1:0]"
  | _ :: _ =>
      r ← SafeRun (submission w);
      let '(result, err, ps) := r in
      check err;
      if Tle result then Ret (verdict "TLE" result, None)
      else if negb (ExitCode ps =? 0) then
        Ret (verdict "Broken" result, Some "executor return non 0, 124 code")
      else if negb (ReturnCode result =? 0) then
        Ret (verdict "RE" result, None)
      else
        c ← SafeRun (checker w);
        let '(checkerResult, err, ps) := c in
        check err;
        if Tle checkerResult then Ret (verdict "ITLE" result, None)
        else if negb (ExitCode ps =? 0) then
          Ret (verdict "Broken" result,
               Some "executor return non 0, 124 code")
        else if ReturnCode checkerResult =? 1 then
          Ret (verdict "WA" result, None)
        else if ReturnCode checkerResult =? 2 then
          Ret (verdict "PE" result, None)
        else if ReturnCode checkerResult =? 3 then
          Ret (verdict "Fail" result, None)
        else if negb (ReturnCode checkerResult =? 0) then
          Ret (verdict "Unknown" result, None)
        else Ret (verdict "AC" result, None)
  end.

(** ** The submission lock (database code, lines 506-558) *)

(** A [time.Time] is its distance in nanoseconds from the zero time
    [time.Time{}]; [Add] is addition and [Before] is [<]. The table of
    [SubmissionLock] rows is a finite map from the primary key [ID] to the
    other columns, and it keeps a time as it was saved. *)
Definition time := Z.

Definition time_zero : time := 0.

(** [time.Minute], in nanoseconds. *)
Definition LOCK_TIME : Z := 60 * 1000000000.

Record SubmissionLock := {
  ID : Z;
  Name : string;
  Ping : time
}.

Abbreviation lock_table := (gmap Z (string * time)).

Definition row_of (l : SubmissionLock) : string * time := (Name l, Ping l).

(** The outcomes of the external calls of one [TryLockSubmission]. *)
Record Tx := {
  now : time;                       (* time.Now() *)
  begin_err : option error;         (* db.Transaction could not begin *)
  first_or_create_err : option error;
  auto_id : positive;               (* the number the database gives a row
                                       inserted without an ID *)
  save_err : option error;          (* tx.Save(lock) *)
  commit_err : option error         (* the commit of the transaction *)
}.

(** The ORM reads a zero [ID] as no [ID] at all: a condition on it is dropped
    from a query, a row inserted with it is numbered by the database, and a
    delete by it has no condition, which the ORM refuses. *)

(** The first row of the table in the order of the primary key. *)
Definition first_row (db : lock_table) : option (Z * (string * time)) :=
  foldr (fun kv acc =>
           match acc with
           | None => Some kv
           | Some kv' => if fst kv <? fst kv' then Some kv else Some kv'
           end)
        None (map_to_list db).

(** [Where(SubmissionLock{ID: id})...FirstOrCreate(&lock)]: the row with this
    [ID], or a new row with the [Attrs]; for [id = 0] the condition is
    dropped, so the first row of the table is read, or a row numbered by the
    database is inserted when the table is empty. *)
Definition FirstOrCreate (db : lock_table) (auto : positive) (id : Z)
    (name : string) : lock_table * SubmissionLock :=
  let found :=
    if id =? 0 then first_row db
    else match db !! id with
         | Some row => Some (id, row)
         | None => None
         end in
  match found with
  | Some (key, (n, p)) => (db, {| ID := key; Name := n; Ping := p |})
  | None =>
      let key := if id =? 0 then Z.pos auto else id in
      let lock := {| ID := key; Name := name; Ping := time_zero |} in
      (<[key := row_of lock]> db, lock)
  end.

(** [tx.Save(lock)]: the row of this [ID] is written; a [lock] with [ID] 0 is
    inserted as a new row numbered by the database. *)
Definition Save (db : lock_table) (auto : positive) (lock : SubmissionLock)
  : lock_table :=
  let key := if ID lock =? 0 then Z.pos auto else ID lock in
  <[key := row_of lock]> db.

(** An error inside the transaction, or at its commit, rolls it back: the
    table is as before the call. *)
Definition TryLockSubmission (db : lock_table) (w : Tx) (id : Z) (name : string)
  : lock_table * (bool * option error) :=
  let rollback err := (db, (false, Some err)) in
  let commit db' succeeded :=
    match commit_err w with
    | Some err => rollback err
    | None => (db', (succeeded, None))
    end in
  match begin_err w with
  | Some err => rollback err
  | None =>
  match first_or_create_err w with
  | Some err => rollback err
  | None =>
      let '(db1, lock) := FirstOrCreate db (auto_id w) id name in
      if negb (String.eqb (Name lock) name)
         && (now w <? Ping lock + LOCK_TIME)
      then commit db1 false
      else
        let lock := {| ID := ID lock; Name := name; Ping := now w |} in
        match save_err w with
        | Some err => rollback err
        | None => commit (Save db1 (auto_id w) lock) true
        end
  end
  end.

(** [UnlockSubmission]: [delete_err] answers the [db.Delete]. With [id = 0]
    the delete has no condition and the ORM returns an error without deleting
    anything. *)
Definition UnlockSubmission (db : lock_table) (w : Tx)
    (delete_err : option error) (id : Z) (name : string)
  : lock_table * option error :=
  match TryLockSubmission db w id name with
  | (db', (_, Some err)) => (db', Some err)
  | (db', (false, None)) => (db', Some "failed to lock")
  | (db', (true, None)) =>
      match delete_err with
      | Some err => (db', Some err)
      | None =>
          if id =? 0 then (db', Some "WHERE conditions required")
          else (delete id db', None)
      end
  end.

(** A call of [TryLockSubmission] and the run of a sequence of calls, with the
    result of each. *)
Record Call := {
  call_id : Z;
  call_name : string;
  call_tx : Tx
}.



(** * Vocabulary of the statements *)

(** The range of Go's 64-bit [int]. *)
Definition max_int : Z := 2 ^ 63 - 1.
Definition min_int : Z := - 2 ^ 63.

(** The retained bytes never exceed [N - 20]. *)
Definition fits (os : Stripper.outputStripper) : Prop :=
  Stripper.len (Stripper.data os) <= Stripper.N os - 20.

(** Go's promoted fields [c.Time] and [c.Memory]. *)
Definition case_time (c : CaseResult) : float := Time (EmbeddedResult c).
Definition case_memory (c : CaseResult) : Z := Memory (EmbeddedResult c).

(** The loop from any starting value of [ans]. *)
Definition loop (ans : CaseResult) (cs : list CaseResult) : CaseResult :=
  fold_left AggregateResults_body cs ans.

(** The capper of [SafeRun] after the writes [ws]. *)
Definition captured (ws : list (list byte)) : Stripper.outputStripper :=
  {| Stripper.N := 2048;
     Stripper.data := take 2028 (concat ws);
     Stripper.overflow := 2028 <? Stripper.len (concat ws) |}.

(** An executor run that exits with [code] and leaves the result [r]. *)
Definition exec_exit (code : Z) (r : Result) : Exec :=
  {| temp_file := None; look_path := None; run := Exited code None;
     stderr_writes := []; read_file := None; unmarshal := inr r |}.

(** The parsed result file: every field but [Stderr]. *)
Definition parsed (rc : Z) (tle : bool) : Result :=
  {| ReturnCode := rc; Time := 0.25%float; Memory := 4096; Tle := tle;
     Stderr := [] |}.

(** A test case whose files are all written, with the two runs given. *)
Definition case_of (sub chk : Exec) : Case :=
  {| create_input := None; copy_input := None; seek_input := None;
     create_expect := None; copy_expect := None; close_expect := None;
     create_actual := None; exec_fields := ["./a.out"];
     submission := sub; checker := chk |}.

(** [TestCase] reaches the run of the submission. *)
Definition setup_ok (w : Case) : Prop :=
  create_input w = None /\ copy_input w = None /\ seek_input w = None
  /\ create_expect w = None /\ copy_expect w = None /\ close_expect w = None
  /\ create_actual w = None /\ exec_fields w <> [].

(** The value [SafeRun] returns once the executor has run and its exit code
    does not fail the call. *)
Definition read_result (x : Exec) : Result * option error * option Z :=
  let ps := ProcessState_of (run x) in
  match read_file x with
  | Some err => (Result_zero, Some err, ps)
  | None =>
      match unmarshal x with
      | inl err => (Result_zero, Some err, ps)
      | inr r =>
          ({| ReturnCode := ReturnCode r; Time := Time r; Memory := Memory r;
              Tle := Tle r;
              Stderr := Stripper.Bytes (captured (stderr_writes x)) |},
           None, ps)
      end
  end.



(** A call at time [t] (in seconds) whose transaction meets no error. *)
Definition call_at (id : Z) (name : string) (seconds : Z) : Call :=
  {| call_id := id; call_name := name;
     call_tx := {| now := seconds * 1000000000; begin_err := None;
                   first_or_create_err := None; auto_id := 1;
                   save_err := None; commit_err := None |} |}.

(** * More of the code *)

(** ** The language table (judge.go, lines 105-130) *)

Module LangTable.

Record Lang := {
  Source : string;
  Compile : string;
  Exec : string
}.

(** [Lang{}] *)
Definition Lang_zero : Lang := {| Source := ""; Compile := ""; Exec := "" |}.

(** An element of [tomlData.Langs]: the embedded [Lang] and its [ID]. *)
Record entry := {
  entry_Lang : Lang;
  entry_ID : string
}.

(** How [init] ends: with the table [langs], or with the process stopped by
    [log.Fatal]. *)
Inductive startup :=
  | Started (langs : gmap string Lang)
  | Fatal (msg : string).

(** The loop [for _, lang := range tomlData.Langs]. *)
Definition fill (entries : list entry) : gmap string Lang :=
  fold_left (fun langs e => <[entry_ID e := entry_Lang e]> langs) entries ∅.

(** [decoded] is the outcome of [toml.DecodeFile]. *)
Definition init (decoded : error + list entry) : startup :=
  match decoded with
  | inl err => Fatal err
  | inr entries =>
      let langs := fill entries in
      match langs !! "checker" with
      | Some _ => Started langs
      | None => Fatal "lang file don't have checker"
      end
  end.

(** [langs[id]], as [NewJudge] and [CompileChecker] read the table: a missing
    key gives the zero value. *)
Definition index (langs : gmap string Lang) (id : string) : Lang :=
  default Lang_zero (langs !! id).

End LangTable.

(** ** CompileSource and CompileChecker (judge.go, lines 195-217)

    [split] is the outcome of [shlex.Split] on the compile command and [x]
    holds the outcomes of the [SafeRun] that follows. *)

Definition CompileSource (split : error + list string) (x : Exec)
  : go (Result * option error) :=
  match split with
  | inl err => Ret (Result_zero, Some err)
  | inr [] => Panic "slice bounds out of range [1:0]"
  | inr (_ :: _) =>
      r ← SafeRun x;
      let '(result, err, _) := r in
      Ret (result, err)
  end.

Definition CompileChecker (split : error + list string) (x : Exec)
  : go (Result * option error) :=
  match split with
  | inl err => Ret (Result_zero, Some err)
  | inr [] => Panic "slice bounds out of range [1:0]"
  | inr (_ :: _) =>
      r ← SafeRun x;
      let '(result, err, _) := r in
      Ret (result, err)
  end.

(** ** FetchTestcaseResults (database code, lines 394-403 and 459-471) *)

Module Testcases.

Record SubmissionTestcaseResult := {
  Submission : Z;
  Testcase : string;
  Status : string;
  Time : Z;
  Memory : Z;
  Stderr : list byte;
  CheckerOut : list byte
}.

(** The function handed to [sort.Slice]: [<] on Go strings compares them byte
    by byte. *)
Definition less (a b : SubmissionTestcaseResult) : bool :=
  String.ltb (Testcase a) (Testcase b).

(** The order [sort.Slice] establishes: no element is [less] than one before
    it. *)
Definition in_order (a b : SubmissionTestcaseResult) : Prop :=
  less b a = false.

#[global] Instance in_order_dec : RelDecision in_order :=
  fun a b => decide (less b a = false).

(** [sort.Slice] as a merge sort. Go's sort is not stable: rows with equal
    [Testcase] may come out in another order, and the properties below do not
    depend on the order among them. *)
Definition sort_Slice (cases : list SubmissionTestcaseResult)
  : list SubmissionTestcaseResult :=
  merge_sort in_order cases.

(** [found] is the outcome of the query for the rows of the submission; the
    returned slice is nil, here [[]], with an error. *)
Definition FetchTestcaseResults (found : error + list SubmissionTestcaseResult)
  : list SubmissionTestcaseResult * option error :=
  match found with
  | inl err => ([], Some err)
  | inr cases => (sort_Slice cases, None)
  end.

End Testcases.

(** ** More vocabulary *)

(** The same test case with another run of the checker. *)
Definition set_checker (chk : Exec) (w : Case) : Case :=
  {| create_input := create_input w; copy_input := copy_input w;
     seek_input := seek_input w; create_expect := create_expect w;
     copy_expect := copy_expect w; close_expect := close_expect w;
     create_actual := create_actual w; exec_fields := exec_fields w;
     submission := submission w; checker := chk |}.

(** The file operations of [TestCase] before the run of the submission all
    succeed. *)
Definition files_ok (w : Case) : Prop :=
  create_input w = None /\ copy_input w = None /\ seek_input w = None
  /\ create_expect w = None /\ copy_expect w = None /\ close_expect w = None
  /\ create_actual w = None.

(** The statuses [TestCase] gives without an error. *)
Definition verdicts : list string :=
  ["TLE"; "RE"; "ITLE"; "WA"; "PE"; "Fail"; "Unknown"; "AC"].

(** A row of submission 1 for the test case [name], accepted. *)
Definition row_of_case (name : string) : Testcases.SubmissionTestcaseResult :=
  {| Testcases.Submission := 1; Testcases.Testcase := name;
     Testcases.Status := "AC"; Testcases.Time := 10; Testcases.Memory := 4096;
     Testcases.Stderr := []; Testcases.CheckerOut := [] |}.

(** [ans] as [AggregateResults] initialises it. *)
Definition ans0 : CaseResult :=
  {| CaseName := ""; Status := "AC"; EmbeddedResult := Result_failed |}.


(** The transaction of a [TryLockSubmission] meets no database error. *)
Definition no_db_error (w : Tx) : Prop :=
  begin_err w = None /\ first_or_create_err w = None
  /\ save_err w = None /\ commit_err w = None.

(** The lock on a row [(holder, ping)] can be taken by [name] at [t]. *)
Definition claimable (row : option (string * time)) (name : string) (t : time)
  : Prop :=
  match row with
  | None => True
  | Some (holder, ping) => holder = name \/ ping + LOCK_TIME <= t
  end.

(** * Properties *)

(** ** outputStripper *)

Section StripperFacts.
Import Stripper.

(** Past the guard [N > 20], the two subtractions of [Write] stay in the range
    of Go's 64-bit [int], so computing them in [Z] loses nothing. *)
Lemma Write_arith_in_range (n l : Z) :
  20 < n <= max_int -> 0 <= l <= max_int ->
  min_int <= n - 20 <= max_int /\ min_int <= n - 20 - l <= max_int.
Proof. unfold max_int, min_int. lia. Qed.

Lemma len_nonneg {A} (l : list A) : 0 <= len l.
Proof. unfold len. lia. Qed.

Lemma len_app {A} (l k : list A) : len (l ++ k) = len l + len k.
Proof. unfold len. rewrite length_app. lia. Qed.

Lemma len_take {A} (n : Z) (l : list A) :
  0 <= n -> len (take (Z.to_nat n) l) = Z.min n (len l).
Proof. intros Hn. unfold len. rewrite length_take. lia. Qed.

Lemma len_stripped : len stripped = 13.
Proof. reflexivity. Qed.

(** A write to a capper that fits: what is kept and when the flag is set. *)
Lemma Write_fits (os : outputStripper) (b : list byte) :
  20 < N os -> fits os ->
  Write os b =
    Ret ({| N := N os;
            data := data os ++ take (Z.to_nat (N os - 20 - len (data os))) b;
            overflow := overflow os || (N os - 20 - len (data os) <? len b) |},
         (len b, None)).
Proof.
  intros HN Hfit. unfold fits in Hfit. unfold Write.
  destruct (Z.leb_spec (N os) 20) as [Hle|_]; [lia|].
  destruct (Z.ltb_spec (N os - 20 - len (data os)) (len b)) as [Hlt|Hge].
  - unfold slice_to.
    destruct (Z.ltb_spec (N os - 20 - len (data os)) 0) as [Hneg|_]; [lia|].
    cbn. now rewrite orb_true_r.
  - unfold slice_to. pose proof (len_nonneg b) as Hb.
    destruct (Z.ltb_spec (len b) 0) as [Hneg|_]; [lia|].
    cbn. rewrite orb_false_r.
    rewrite !take_ge by (unfold len in *; lia). reflexivity.
Qed.

Lemma write_all_fits (ws : list (list byte)) :
  forall os : outputStripper,
  20 < N os -> fits os ->
  write_all os ws =
    Ret ({| N := N os;
            data := data os
                    ++ take (Z.to_nat (N os - 20 - len (data os))) (concat ws);
            overflow := overflow os
                        || (N os - 20 - len (data os) <? len (concat ws)) |},
         None).
Proof.
  induction ws as [|b ws IH]; intros os HN Hfit.
  - cbn. rewrite take_nil, app_nil_r.
    unfold fits in Hfit.
    destruct (Z.ltb_spec (N os - 20 - len (data os)) (len (@nil byte)))
      as [Hlt|_]; [change (len (@nil byte)) with 0 in Hlt; lia|].
    rewrite orb_false_r. now destruct os.
  - cbn [write_all concat]. rewrite (Write_fits os b HN Hfit). cbn.
    unfold fits in Hfit. pose proof (len_nonneg b) as Hb.
    pose proof (len_nonneg (concat ws)) as Hws.
    set (cap := N os - 20 - len (data os)) in *.
    rewrite IH; cbn [N data overflow]; [|lia|].
    2:{ unfold fits. cbn. rewrite len_app, len_take by lia. lia. }
    rewrite len_app, len_take by lia.
    match goal with
    | |- Ret ({| N := _; data := ?d1; overflow := ?o1 |}, _)
         = Ret ({| N := _; data := ?d2; overflow := ?o2 |}, _) =>
        assert (d1 = d2) as Hd; [|assert (o1 = o2) as Ho]
    end.
    + rewrite <- app_assoc, take_app. unfold len in *. subst cap.
      match goal with
      | |- _ ++ _ ++ take ?x _ = _ ++ _ ++ take ?y _ =>
          replace x with y by lia
      end. reflexivity.
    + rewrite <- orb_assoc. f_equal. rewrite len_app. subst cap.
      repeat match goal with
             | |- context [?x <? ?y] => destruct (Z.ltb_spec x y)
             end; cbn; try reflexivity; lia.
    + now rewrite Hd, Ho.
Qed.

(** C4, as amended. For every capacity [n > 20] and every sequence of writes
    to a fresh capper, every write succeeds; the retained bytes are the first
    [n - 20] bytes of the concatenated input; the snapshot is at most [n] bytes
    long; the overflow flag is set exactly when at least one input byte was
    discarded, and then the snapshot ends with the sentinel; when no byte was
    discarded the snapshot is the input itself, whatever its last bytes are. *)
Theorem snapshot_bounded_and_marked (n : Z) (ws : list (list byte)) :
  20 < n ->
  exists os : outputStripper,
    write_all (new n) ws = Ret (os, None)
    /\ data os = take (Z.to_nat (n - 20)) (concat ws)
    /\ len (Bytes os) <= n
    /\ (overflow os = true <-> len (data os) < len (concat ws))
    /\ (len (data os) < len (concat ws) ->
        Bytes os = data os ++ stripped /\ stripped `suffix_of` Bytes os)
    /\ (len (data os) = len (concat ws) -> Bytes os = concat ws).
Proof.
  intros Hn. eexists. split.
  { apply write_all_fits; [exact Hn|unfold fits, len; cbn; lia]. }
  cbn [N data overflow new app orb]. change (len (@nil byte)) with 0.
  rewrite Z.sub_0_r. pose proof (len_nonneg (concat ws)) as Hws.
  assert (Hlen : len (take (Z.to_nat (n - 20)) (concat ws))
                 = Z.min (n - 20) (len (concat ws)))
    by (apply len_take; lia).
  unfold Bytes; cbn [data overflow].
  split; [reflexivity|].
  destruct (Z.ltb_spec (n - 20) (len (concat ws))) as [Hlt|Hge].
  - rewrite len_app, Hlen, len_stripped.
    repeat split; try lia; try reflexivity.
    now apply suffix_app_r.
  - rewrite app_nil_r, Hlen.
    repeat split; try lia; try discriminate.
    intros _. apply take_ge. unfold len in Hge. lia.
Qed.

(** The theorem at the capacity [SafeRun] uses and one write of two bytes. *)
Lemma snapshot_bounded_and_marked_witness :
  exists os : outputStripper,
    write_all (new 2048) [["a"; "b"]%byte] = Ret (os, None)
    /\ data os = take (Z.to_nat (2048 - 20)) (concat [["a"; "b"]%byte])
    /\ len (Bytes os) <= 2048
    /\ (overflow os = true
        <-> len (data os) < len (concat [["a"; "b"]%byte]))
    /\ (len (data os) < len (concat [["a"; "b"]%byte]) ->
        Bytes os = data os ++ stripped /\ stripped `suffix_of` Bytes os)
    /\ (len (data os) = len (concat [["a"; "b"]%byte])
        -> Bytes os = concat [["a"; "b"]%byte]).
Proof. apply (snapshot_bounded_and_marked 2048 [["a"; "b"]%byte]). lia. Defined.

(** C4 as stated fails: a program that writes the bytes of the sentinel itself
    to a capper of capacity 2048 loses no byte, and yet the snapshot ends with
    the sentinel. *)
Lemma sentinel_suffix_without_discard :
  let os := {| N := 2048; data := stripped; overflow := false |} in
  write_all (new 2048) [stripped] = Ret (os, None)
  /\ len (Bytes os) <= 2048
  /\ stripped `suffix_of` Bytes os
  /\ ~ len (data os) < len (concat [stripped]).
Proof.
  cbn zeta. split; [reflexivity|]. split; [vm_compute; discriminate|].
  split; [exists []; reflexivity|]. vm_compute. discriminate.
Qed.

(** C10, as amended. On a capper of capacity [N > 20] that has not overflowed,
    a write whose length is exactly the remaining capacity is kept in full and
    leaves the flag unset: the buffer then holds [N - 20] bytes and the
    snapshot is those bytes, with nothing appended. *)
Theorem exact_fit_write (os : outputStripper) (b : list byte) :
  20 < N os ->
  overflow os = false ->
  len b = N os - 20 - len (data os) ->
  let os' := {| N := N os; data := data os ++ b; overflow := false |} in
  Write os b = Ret (os', (len b, None))
  /\ len (data os') = N os' - 20
  /\ Bytes os' = data os ++ b.
Proof.
  intros HN Hov Hlen. cbn zeta. pose proof (len_nonneg b) as Hb.
  rewrite Write_fits by (try assumption; unfold fits; lia).
  rewrite Hov, <- Hlen, Z.ltb_irrefl.
  rewrite take_ge by (unfold len; lia).
  unfold Bytes. cbn. rewrite app_nil_r, len_app.
  repeat split. lia.
Qed.

(** The theorem at capacity 23: one byte kept, two more written. *)
Lemma exact_fit_write_witness :
  let os := {| N := 23; data := ["a"%byte]; overflow := false |} in
  let b := ["b"; "c"]%byte in
  let os' := {| N := N os; data := data os ++ b; overflow := false |} in
  Write os b = Ret (os', (len b, None))
  /\ len (data os') = N os' - 20
  /\ Bytes os' = data os ++ b.
Proof.
  apply (exact_fit_write {| N := 23; data := ["a"%byte]; overflow := false |}
           ["b"; "c"]%byte); [cbn; lia|reflexivity|reflexivity].
Defined.

(** C10 as stated fails: on a capper of capacity 21, the write of two bytes
    keeps one and sets the flag; the empty write that follows has exactly the
    length of the remaining capacity, 0, and the snapshot after it carries the
    sentinel. *)
Lemma exact_fit_after_overflow :
  let os := {| N := 21; data := ["a"%byte]; overflow := true |} in
  write_all (new 21) [["a"; "b"]%byte] = Ret (os, None)
  /\ len (@nil byte) = N os - 20 - len (data os)
  /\ Write os [] = Ret (os, (0, None))
  /\ Bytes os = ["a"%byte] ++ stripped.
Proof. cbn zeta. repeat split. Qed.

End StripperFacts.

(** ** The order of float64

    [<] on binary64 is irreflexive and transitive, NaN included (NaN is below
    and above nothing), from the specification of [PrimFloat.ltb]. *)

Section FloatOrder.

Ltac cases_compare :=
  repeat match goal with
    | H : context [Z.compare ?x ?y] |- _ => destruct (Z.compare_spec x y)
    | |- context [Z.compare ?x ?y] => destruct (Z.compare_spec x y)
    | H : context [Pos.compare ?x ?y] |- _ => destruct (Pos.compare_spec x y)
    | |- context [Pos.compare ?x ?y] => destruct (Pos.compare_spec x y)
    end.

Lemma SFltb_irrefl (f : spec_float) : SFltb f f = false.
Proof.
  unfold SFltb, SFcompare.
  destruct f as [s|s| |s m e]; try destruct s; try reflexivity;
    fold (Pos.compare m m); rewrite Z.compare_refl, Pos.compare_refl;
    reflexivity.
Qed.

Lemma SFltb_trans (a b c : spec_float) :
  SFltb a b = true -> SFltb b c = true -> SFltb a c = true.
Proof.
  unfold SFltb, SFcompare.
  destruct a as [sa|sa| |sa ma ea], b as [sb|sb| |sb mb eb],
           c as [sc|sc| |sc mc ec];
    try destruct sa; try destruct sb; try destruct sc;
    try discriminate; try reflexivity;
    repeat match goal with
      | |- context [Pos.compare_cont Eq ?x ?y] => fold (Pos.compare x y)
      end;
    intros Hab Hbc; cases_compare; cbn in *;
    try discriminate; try reflexivity; try lia.
Qed.

Lemma ltb_irrefl (x : float) : PrimFloat.ltb x x = false.
Proof. rewrite ltb_spec. apply SFltb_irrefl. Qed.

Lemma ltb_trans (x y z : float) :
  PrimFloat.ltb x y = true -> PrimFloat.ltb y z = true ->
  PrimFloat.ltb x z = true.
Proof. rewrite !ltb_spec. apply SFltb_trans. Qed.

(** What is not above [x] is not above a larger [y]: the step the running
    maximum needs. *)
Lemma ltb_not_above (x y z : float) :
  PrimFloat.ltb x y = true -> PrimFloat.ltb x z = false ->
  PrimFloat.ltb y z = false.
Proof.
  intros Hxy Hxz. destruct (PrimFloat.ltb y z) eqn:Hyz; [|reflexivity].
  rewrite (ltb_trans x y z Hxy Hyz) in Hxz. discriminate.
Qed.

Ltac fold_pos_compare :=
  repeat match goal with
    | |- context [Pos.compare_cont Eq ?x ?y] => fold (Pos.compare x y)
    end.

(** [x == x] says that [x] is not NaN. *)
Lemma SFltb_not_nan (a b : spec_float) : SFltb a b = true -> SFeqb b b = true.
Proof.
  unfold SFltb, SFeqb, SFcompare.
  destruct a as [sa|sa| |sa ma ea], b as [sb|sb| |sb mb eb];
    try destruct sa; try destruct sb; try discriminate; try reflexivity;
    fold_pos_compare; rewrite Z.compare_refl, Pos.compare_refl; reflexivity.
Qed.

Lemma SFleb_total (a b : spec_float) :
  SFeqb a a = true -> SFeqb b b = true -> SFltb a b = false ->
  SFleb b a = true.
Proof.
  unfold SFltb, SFleb, SFeqb, SFcompare.
  destruct a as [sa|sa| |sa ma ea], b as [sb|sb| |sb mb eb];
    try destruct sa; try destruct sb; try discriminate; try reflexivity;
    fold_pos_compare; intros _ _ Hab; cases_compare; cbn in *;
    try discriminate; try reflexivity; try lia.
Qed.

Lemma ltb_not_nan (x y : float) :
  PrimFloat.ltb x y = true -> PrimFloat.eqb y y = true.
Proof. rewrite ltb_spec, FloatAxioms.eqb_spec. apply SFltb_not_nan. Qed.

Lemma leb_total (x y : float) :
  PrimFloat.eqb x x = true -> PrimFloat.eqb y y = true ->
  PrimFloat.ltb x y = false -> PrimFloat.leb y x = true.
Proof.
  rewrite ltb_spec, leb_spec, !FloatAxioms.eqb_spec. apply SFleb_total.
Qed.

(** Only -1 itself is both at least -1 and not above it. *)
Lemma leb_not_ltb_minus_one (t : float) :
  PrimFloat.leb (-1)%float t = true -> PrimFloat.ltb (-1)%float t = false ->
  t = (-1)%float.
Proof.
  rewrite leb_spec, ltb_spec. intros Hle Hlt. apply Prim2SF_inj.
  replace (Prim2SF (-1)%float)
    with (S754_finite true 4503599627370496 (-52)) in *
    by (vm_compute; reflexivity).
  unfold SFleb, SFltb, SFcompare in *.
  destruct (Prim2SF t) as [s|s| |s m e]; try destruct s; try discriminate.
  fold (Pos.compare 4503599627370496 m) in *.
  cases_compare; cbn in *; try discriminate; subst; reflexivity.
Qed.

End FloatOrder.

(** ** AggregateResults *)

Section AggregateFacts.

Lemma body_Status (ans res : CaseResult) :
  Status (AggregateResults_body ans res)
  = if String.eqb (Status res) "AC" then Status ans else Status res.
Proof.
  unfold AggregateResults_body.
  destruct (String.eqb (Status res) "AC"); cbn;
    repeat match goal with |- context [if ?b then _ else _] => destruct b end;
    reflexivity.
Qed.

Lemma body_time (ans res : CaseResult) :
  case_time (AggregateResults_body ans res)
  = if PrimFloat.ltb (case_time ans) (case_time res)
    then case_time res else case_time ans.
Proof.
  unfold AggregateResults_body, case_time.
  destruct (negb (String.eqb (Status res) "AC")); cbn;
    destruct (PrimFloat.ltb _ _); cbn; destruct (_ <? _); reflexivity.
Qed.

Lemma body_memory (ans res : CaseResult) :
  case_memory (AggregateResults_body ans res)
  = Z.max (case_memory ans) (case_memory res).
Proof.
  unfold AggregateResults_body, case_memory.
  destruct (negb (String.eqb (Status res) "AC")); cbn;
    destruct (PrimFloat.ltb _ _); cbn;
    match goal with |- context [?x <? ?y] => destruct (Z.ltb_spec x y) end;
    cbn; lia.
Qed.

Lemma memory_grows (cs : list CaseResult) :
  forall ans, case_memory ans <= case_memory (loop ans cs).
Proof.
  induction cs as [|c cs IH]; intros ans; cbn; [lia|].
  specialize (IH (AggregateResults_body ans c)).
  rewrite body_memory in IH. fold (loop (AggregateResults_body ans c) cs). lia.
Qed.

Lemma memory_upper (cs : list CaseResult) :
  forall ans c, c ∈ cs -> case_memory c <= case_memory (loop ans cs).
Proof.
  induction cs as [|d cs IH]; intros ans c Hc.
  - inversion Hc.
  - apply elem_of_cons in Hc as [->|Hc]; cbn.
    + pose proof (memory_grows cs (AggregateResults_body ans d)) as H.
      rewrite body_memory in H. unfold loop in H. lia.
    + apply IH, Hc.
Qed.

Lemma memory_attained (cs : list CaseResult) :
  forall ans,
  case_memory (loop ans cs) = case_memory ans
  \/ exists c, c ∈ cs /\ case_memory (loop ans cs) = case_memory c.
Proof.
  induction cs as [|d cs IH]; intros ans; cbn; [now left|].
  destruct (IH (AggregateResults_body ans d)) as [H|(c & Hc & H)].
  - unfold loop in H. rewrite H, body_memory.
    destruct (Z.max_spec (case_memory ans) (case_memory d)) as [[_ ->]|[_ ->]].
    + right. exists d. split; [apply list_elem_of_here|reflexivity].
    + now left.
  - right. exists c. split; [now apply list_elem_of_further|exact H].
Qed.

Lemma time_grows (cs : list CaseResult) :
  forall ans z,
  PrimFloat.ltb (case_time ans) z = false ->
  PrimFloat.ltb (case_time (loop ans cs)) z = false.
Proof.
  induction cs as [|c cs IH]; intros ans z Hz; cbn; [exact Hz|].
  apply IH. rewrite body_time.
  destruct (PrimFloat.ltb (case_time ans) (case_time c)) eqn:Hlt;
    [exact (ltb_not_above _ _ _ Hlt Hz)|exact Hz].
Qed.

Lemma time_upper (cs : list CaseResult) :
  forall ans c, c ∈ cs ->
  PrimFloat.ltb (case_time (loop ans cs)) (case_time c) = false.
Proof.
  induction cs as [|d cs IH]; intros ans c Hc.
  - inversion Hc.
  - apply elem_of_cons in Hc as [->|Hc]; cbn; [|apply IH, Hc].
    apply time_grows. rewrite body_time.
    destruct (PrimFloat.ltb (case_time ans) (case_time d)) eqn:Hlt;
      [apply ltb_irrefl|exact Hlt].
Qed.

Lemma time_attained (cs : list CaseResult) :
  forall ans,
  case_time (loop ans cs) = case_time ans
  \/ exists c, c ∈ cs /\ case_time (loop ans cs) = case_time c.
Proof.
  induction cs as [|d cs IH]; intros ans; cbn; [now left|].
  destruct (IH (AggregateResults_body ans d)) as [H|(c & Hc & H)].
  - unfold loop in H. rewrite H, body_time.
    destruct (PrimFloat.ltb (case_time ans) (case_time d)).
    + right. exists d. split; [apply list_elem_of_here|reflexivity].
    + now left.
  - right. exists c. split; [now apply list_elem_of_further|exact H].
Qed.

(** The running maximum is never NaN. *)
Lemma time_not_nan (cs : list CaseResult) :
  forall ans,
  PrimFloat.eqb (case_time ans) (case_time ans) = true ->
  PrimFloat.eqb (case_time (loop ans cs)) (case_time (loop ans cs)) = true.
Proof.
  induction cs as [|c cs IH]; intros ans Hans; cbn; [exact Hans|].
  apply IH. rewrite body_time.
  destruct (PrimFloat.ltb (case_time ans) (case_time c)) eqn:Hlt;
    [exact (ltb_not_nan _ _ Hlt)|exact Hans].
Qed.

Lemma loop_app (ans : CaseResult) (pre post : list CaseResult) :
  loop ans (pre ++ post) = loop (loop ans pre) post.
Proof. apply fold_left_app. Qed.

Lemma status_kept (post : list CaseResult) :
  Forall (fun d => Status d = "AC") post ->
  forall ans, Status (loop ans post) = Status ans.
Proof.
  induction 1 as [|d post Hd _ IH]; intros ans; cbn; [reflexivity|].
  fold (loop (AggregateResults_body ans d) post).
  rewrite IH, body_Status, Hd. reflexivity.
Qed.

(** A list with a non-AC case splits at its last non-AC case. *)
Lemma last_non_AC_split (cs : list CaseResult) :
  (exists c, c ∈ cs /\ Status c <> "AC") ->
  exists pre c post,
    cs = pre ++ c :: post /\ Status c <> "AC"
    /\ Forall (fun d => Status d = "AC") post.
Proof.
  induction cs as [|a cs IH]; intros (c & Hc & Hne).
  - inversion Hc.
  - destruct (decide (Forall (fun d => Status d = "AC") cs)) as [Hall|Hex].
    + exists [], a, cs. repeat split; [|exact Hall].
      apply elem_of_cons in Hc as [->|Hc]; [exact Hne|].
      rewrite Forall_forall in Hall. now specialize (Hall c Hc).
    + apply not_Forall_Exists in Hex; [|intros d; apply _].
      apply Exists_exists in Hex as (d & Hd & Hdne).
      destruct IH as (pre & e & post & -> & He & Hpost); [now exists d|].
      exists (a :: pre), e, post. now repeat split.
Qed.

(** C7 as stated fails: for the one-element list whose case has time -2 and
    memory -2, the aggregate keeps the initial -1 in both fields, which is not
    the maximum over the list. *)
Lemma aggregate_below_sentinel :
  let c := {| CaseName := "a"; Status := "AC";
              EmbeddedResult :=
                {| ReturnCode := 0; Time := (-2)%float; Memory := -2;
                   Tle := false; Stderr := [] |} |} in
  case_memory (AggregateResults [c]) = -1
  /\ case_memory (AggregateResults [c]) <> case_memory c
  /\ case_time (AggregateResults [c]) = (-1)%float
  /\ PrimFloat.eqb (case_time (AggregateResults [c])) (case_time c) = false.
Proof. cbn zeta. repeat split. vm_compute. discriminate. Qed.

(** C7, as amended. The aggregate's time and memory are the maximum of -1 and
    the values of the cases: no case's value is above them ([<] of Go; a case
    whose time is not NaN is [<=] the aggregate's), they are at least -1, and
    they are -1 or the value of a case; they are the value of a case, hence the
    maximum over the list, whenever some case's value is at least -1. For the
    empty list both are -1. *)
Theorem AggregateResults_max (cs : list CaseResult) :
  let a := AggregateResults cs in
  (forall c, c ∈ cs -> case_memory c <= case_memory a)
  /\ -1 <= case_memory a
  /\ (case_memory a = -1
      \/ exists c, c ∈ cs /\ case_memory a = case_memory c)
  /\ ((exists c, c ∈ cs /\ -1 <= case_memory c) ->
      exists c, c ∈ cs /\ case_memory a = case_memory c)
  /\ (forall c, c ∈ cs ->
      PrimFloat.ltb (case_time a) (case_time c) = false)
  /\ (forall c, c ∈ cs ->
      PrimFloat.eqb (case_time c) (case_time c) = true ->
      PrimFloat.leb (case_time c) (case_time a) = true)
  /\ PrimFloat.leb (-1)%float (case_time a) = true
  /\ (case_time a = (-1)%float
      \/ exists c, c ∈ cs /\ case_time a = case_time c)
  /\ ((exists c, c ∈ cs /\ PrimFloat.leb (-1)%float (case_time c) = true) ->
      exists c, c ∈ cs /\ case_time a = case_time c)
  /\ (cs = [] -> case_time a = (-1)%float /\ case_memory a = -1).
Proof.
  cbn zeta. unfold AggregateResults.
  set (ans := {| CaseName := ""; Status := "AC";
                 EmbeddedResult := Result_failed |}).
  fold (loop ans cs).
  assert (Hnan : PrimFloat.eqb (case_time (loop ans cs))
                   (case_time (loop ans cs)) = true)
    by (apply time_not_nan; reflexivity).
  assert (Hup : forall c, c ∈ cs ->
            PrimFloat.ltb (case_time (loop ans cs)) (case_time c) = false)
    by (intros c Hc; now apply time_upper).
  assert (Hmup : forall c, c ∈ cs ->
            case_memory c <= case_memory (loop ans cs))
    by (intros c Hc; now apply memory_upper).
  pose proof (memory_grows cs ans) as Hm1.
  pose proof (memory_attained cs ans) as Hmat.
  pose proof (time_attained cs ans) as Htat.
  change (case_memory ans) with (-1) in *.
  change (case_time ans) with (-1)%float in *.
  repeat apply conj; try assumption.
  - intros (c & Hc & Hge). destruct Hmat as [Heq|Hat]; [|exact Hat].
    exists c. split; [exact Hc|]. specialize (Hmup c Hc). lia.
  - intros c Hc Hc_nan. now apply leb_total; [| |apply Hup].
  - apply leb_total; [exact Hnan|reflexivity|].
    apply time_grows. reflexivity.
  - intros (c & Hc & Hge). destruct Htat as [Heq|Hat]; [|exact Hat].
    exists c. split; [exact Hc|]. rewrite Heq. symmetry.
    apply leb_not_ltb_minus_one; [exact Hge|].
    rewrite <- Heq. now apply Hup.
  - intros ->. split; reflexivity.
Qed.

(** C8. When some case is not AC, the aggregate's status is the status of the
    last case that is not AC, in the order of the input. *)
Theorem AggregateResults_last_non_AC (cs : list CaseResult) :
  (exists c, c ∈ cs /\ Status c <> "AC") ->
  exists pre c post,
    cs = pre ++ c :: post
    /\ Status c <> "AC"
    /\ Forall (fun d => Status d = "AC") post
    /\ Status (AggregateResults cs) = Status c.
Proof.
  intros Hex. destruct (last_non_AC_split cs Hex) as (pre & c & post & H).
  destruct H as (-> & Hne & Hpost).
  exists pre, c, post. repeat split; try assumption.
  unfold AggregateResults.
  match goal with |- Status (fold_left _ _ ?a) = _ => fold (loop a (pre ++ c :: post)) end.
  rewrite loop_app. cbn [loop fold_left].
  match goal with
  | |- Status (fold_left _ post ?a) = _ => fold (loop a post)
  end.
  rewrite status_kept by exact Hpost.
  rewrite body_Status. apply String.eqb_neq in Hne. now rewrite Hne.
Qed.

(** The theorem on WA, TLE, AC: the aggregate is TLE. *)
Lemma AggregateResults_last_non_AC_witness :
  exists pre c post,
    [verdict "WA" Result_zero; verdict "TLE" Result_zero;
     verdict "AC" Result_zero] = pre ++ c :: post
    /\ Status c <> "AC"
    /\ Forall (fun d => Status d = "AC") post
    /\ Status (AggregateResults
                 [verdict "WA" Result_zero; verdict "TLE" Result_zero;
                  verdict "AC" Result_zero]) = Status c.
Proof.
  apply (AggregateResults_last_non_AC
           [verdict "WA" Result_zero; verdict "TLE" Result_zero;
            verdict "AC" Result_zero]).
  exists (verdict "WA" Result_zero). split; [apply list_elem_of_here|].
  cbn. discriminate.
Defined.

End AggregateFacts.

(** ** SafeRun *)

Section RunnerFacts.

Lemma capture_all (ws : list (list byte)) :
  Stripper.write_all (Stripper.new (Z.shiftl 1 11)) ws
  = Ret (captured ws, None).
Proof.
  change (Z.shiftl 1 11) with 2048.
  rewrite write_all_fits; [|cbn; lia|unfold fits, Stripper.len; cbn; lia].
  reflexivity.
Qed.

Lemma SafeRun_cases (x : Exec) :
  SafeRun x =
  Ret match temp_file x with
      | Some err => (Result_zero, Some err, None)
      | None =>
      match look_path x with
      | Some err => (Result_zero, Some err, None)
      | None =>
      match Run_err (run x) with
      | Some err =>
          if ExitCode (ProcessState_of (run x)) =? 124 then read_result x
          else (Result_failed, Some err, ProcessState_of (run x))
      | None => read_result x
      end
      end
      end.
Proof.
  unfold SafeRun, read_result.
  destruct (temp_file x); [reflexivity|].
  destruct (look_path x); [reflexivity|].
  rewrite capture_all. cbn.
  destruct (Run_err (run x)), (ExitCode (ProcessState_of (run x)) =? 124),
    (read_file x), (unmarshal x); reflexivity.
Qed.

(** [SafeRun] never panics. *)
Lemma SafeRun_returns (x : Exec) : exists v, SafeRun x = Ret v.
Proof. rewrite SafeRun_cases. eauto. Qed.

(** A call without error ran the executor, which exited with 0 or 124, and
    returns the parsed result file. *)
Lemma SafeRun_ok (x : Exec) (r : Result) (ps : option Z) :
  SafeRun x = Ret (r, None, ps) ->
  (ExitCode ps = 0 \/ ExitCode ps = 124)
  /\ ps = ProcessState_of (run x)
  /\ exists r0, unmarshal x = inr r0 /\ Tle r = Tle r0
                /\ ReturnCode r = ReturnCode r0.
Proof.
  rewrite SafeRun_cases. unfold read_result, Run_err.
  destruct (temp_file x); [discriminate|].
  destruct (look_path x); [discriminate|].
  destruct (run x) as [e|code ce]; cbn.
  - intros [=].
  - destruct (Z.eqb_spec code 0) as [->|Hne].
    + destruct ce as [e|]; cbn; [intros [=]|].
      destruct (read_file x); [intros [=]|].
      destruct (unmarshal x) as [e|r0]; intros [=]; subst; cbn.
      split; [auto|split; [reflexivity|exists r0; repeat split]].
    + destruct (Z.eqb_spec code 124) as [->|Hne']; [|intros [=]].
      destruct (read_file x); [intros [=]|].
      destruct (unmarshal x) as [e|r0]; intros [=]; subst; cbn.
      split; [auto|split; [reflexivity|exists r0; repeat split]].
Qed.

(** C5. Once the executor has been started, an exit code other than 0 and 124
    makes [SafeRun] return [Result{ReturnCode: -1, Time: -1, Memory: -1}] and
    an error. An exit code of 124 does not: the result file is read, the call
    fails only if reading or parsing it fails, and otherwise returns its
    contents with the captured stderr and no error. *)
Theorem SafeRun_executor_exit (x : Exec) (code : Z) (copy_err : option error) :
  temp_file x = None -> look_path x = None -> run x = Exited code copy_err ->
  (code <> 0 -> code <> 124 ->
   exists err,
     SafeRun x =
       Ret ({| ReturnCode := -1; Time := (-1)%float; Memory := -1;
               Tle := false; Stderr := [] |}, Some err, Some code))
  /\ (code = 124 -> forall r e ps, SafeRun x = Ret (r, Some e, ps) ->
      read_file x = Some e \/ unmarshal x = inl e)
  /\ (code = 124 -> read_file x = None ->
      forall r, unmarshal x = inr r ->
      SafeRun x =
        Ret ({| ReturnCode := ReturnCode r; Time := Time r;
                Memory := Memory r; Tle := Tle r;
                Stderr := Stripper.Bytes (captured (stderr_writes x)) |},
             None, Some 124)).
Proof.
  intros Htmp Hlook Hrun. rewrite SafeRun_cases, Htmp, Hlook.
  unfold read_result. rewrite Hrun. cbn.
  repeat split.
  - intros H0 H124. apply Z.eqb_neq in H0, H124. rewrite H0, H124. eauto.
  - intros -> r e ps. cbn.
    destruct (read_file x); [intros [=]; subst; now left|].
    destruct (unmarshal x); intros [=]; subst. now right.
  - intros -> Hread r Hr. cbn. now rewrite Hread, Hr.
Qed.

(** The theorem at an executor that exits with 1, and at one that exits with
    124 after writing its result file. *)
Lemma SafeRun_executor_exit_witness :
  (exists err,
     SafeRun (exec_exit 1 (parsed 0 false))
     = Ret ({| ReturnCode := -1; Time := (-1)%float; Memory := -1;
                  Tle := false; Stderr := [] |},
            Some err, Some 1))
  /\ SafeRun (exec_exit 124 (parsed 0 true))
     = Ret ({| ReturnCode := 0; Time := 0.25%float; Memory := 4096;
               Tle := true; Stderr := [] |}, None, Some 124).
Proof.
  split.
  - apply (SafeRun_executor_exit (exec_exit 1 (parsed 0 false)) 1 None);
      [reflexivity|reflexivity|reflexivity|lia|lia].
  - exact (proj2 (proj2 (SafeRun_executor_exit
                           (exec_exit 124 (parsed 0 true)) 124 None
                           eq_refl eq_refl eq_refl))
             eq_refl eq_refl (parsed 0 true) eq_refl).
Defined.

End RunnerFacts.

(** ** TestCase *)

Section TestCaseFacts.

(** Rewrites [TestCase] up to the run of the submission. *)
Ltac enter_setup H :=
  let Hf := fresh "Hfields" in
  unfold TestCase;
  destruct H as (-> & -> & -> & -> & -> & -> & -> & Hf); cbn [or_return];
  match type of Hf with
  | ?l <> [] => destruct l; [contradiction|]
  end.

(** C1. When the submission's run completes (no error from [SafeRun], no
    time-out, executor exit 0, return code 0) and [SafeRun] of the checker
    returns no error: a checker time-out gives ITLE; otherwise, with executor
    exit 0, the checker's return code 0, 1, 2, 3 gives AC, WA, PE, Fail, and
    any other code gives Unknown. The verdict carries the submission's result
    and no error. *)
Theorem TestCase_checker_verdict (w : Case) (result checkerResult : Result)
    (ps cps : option Z) :
  setup_ok w ->
  SafeRun (submission w) = Ret (result, None, ps) ->
  Tle result = false -> ExitCode ps = 0 -> ReturnCode result = 0 ->
  SafeRun (checker w) = Ret (checkerResult, None, cps) ->
  (Tle checkerResult = true ->
   TestCase w =
     Ret ({| CaseName := ""; Status := "ITLE";
             EmbeddedResult := result |}, None))
  /\ (Tle checkerResult = false -> ExitCode cps = 0 ->
      (ReturnCode checkerResult = 0 ->
       TestCase w =
         Ret ({| CaseName := ""; Status := "AC";
                 EmbeddedResult := result |}, None))
      /\ (ReturnCode checkerResult = 1 ->
          TestCase w =
            Ret ({| CaseName := ""; Status := "WA";
                    EmbeddedResult := result |}, None))
      /\ (ReturnCode checkerResult = 2 ->
          TestCase w =
            Ret ({| CaseName := ""; Status := "PE";
                    EmbeddedResult := result |}, None))
      /\ (ReturnCode checkerResult = 3 ->
          TestCase w =
            Ret ({| CaseName := ""; Status := "Fail";
                    EmbeddedResult := result |}, None))
      /\ (ReturnCode checkerResult <> 0 -> ReturnCode checkerResult <> 1 ->
          ReturnCode checkerResult <> 2 -> ReturnCode checkerResult <> 3 ->
          TestCase w =
            Ret ({| CaseName := ""; Status := "Unknown";
                    EmbeddedResult := result |}, None))).
Proof.
  intros Hsetup Hsub Htle Hexit Hrc Hchk. enter_setup Hsetup.
  rewrite Hsub. cbn. rewrite Htle, Hexit, Hrc. cbn. rewrite Hchk. cbn.
  split.
  - intros ->. reflexivity.
  - intros -> ->. cbn.
    repeat split; try (intros ->; reflexivity).
    intros H0 H1 H2 H3. apply Z.eqb_neq in H0, H1, H2, H3.
    now rewrite H0, H1, H2, H3.
Qed.

(** The theorem at a checker that returns 1: the verdict is WA. *)
Lemma TestCase_checker_verdict_witness :
  TestCase (case_of (exec_exit 0 (parsed 0 false))
                    (exec_exit 0 (parsed 1 false)))
  =
    Ret ({| CaseName := ""; Status := "WA";
            EmbeddedResult := (parsed 0 false) |}, None).
Proof.
  apply (TestCase_checker_verdict
           (case_of (exec_exit 0 (parsed 0 false))
                    (exec_exit 0 (parsed 1 false)))
           (parsed 0 false) (parsed 1 false) (Some 0) (Some 0));
    try reflexivity.
  unfold setup_ok. cbn. repeat split. discriminate.
Defined.

(** C2 as stated fails: when the executor of the submission exits with 1,
    [SafeRun] returns an error and [TestCase] returns that error with the zero
    [CaseResult], whose status is the empty string. *)
Lemma SafeRun_error_is_not_Broken :
  let w := case_of (exec_exit 1 (parsed 0 false))
                   (exec_exit 0 (parsed 0 false)) in
  SafeRun (submission w) = Ret (Result_failed, Some "exit status", Some 1)
  /\ TestCase w = Ret (CaseResult_zero, Some "exit status")
  /\ Status CaseResult_zero <> "Broken".
Proof. cbn zeta. repeat split. discriminate. Qed.

(** C2, as amended. When [SafeRun] of the submission returns an error,
    [TestCase] returns the zero [CaseResult] (its status is empty) together
    with that error. *)
Theorem TestCase_SafeRun_error (w : Case) (result : Result) (err : error)
    (ps : option Z) :
  setup_ok w ->
  SafeRun (submission w) = Ret (result, Some err, ps) ->
  TestCase w = Ret (CaseResult_zero, Some err)
  /\ Status CaseResult_zero = "".
Proof.
  intros Hsetup Hsub. enter_setup Hsetup. rewrite Hsub. split; reflexivity.
Qed.

(** The theorem at an executor that exits with 1. *)
Lemma TestCase_SafeRun_error_witness :
  TestCase (case_of (exec_exit 1 (parsed 0 false))
                    (exec_exit 0 (parsed 0 false)))
  = Ret (CaseResult_zero, Some "exit status")
  /\ Status CaseResult_zero = "".
Proof.
  apply (TestCase_SafeRun_error
           (case_of (exec_exit 1 (parsed 0 false))
                    (exec_exit 0 (parsed 0 false)))
           Result_failed "exit status" (Some 1)); [|reflexivity].
  unfold setup_ok. cbn. repeat split. discriminate.
Defined.

(** After a run of the submission without error and without time-out, the
    executor's exit code is 0 or 124, and [TestCase] returns Broken at once
    exactly when it is 124. *)
Lemma phase1_Broken_exactly_124 (w : Case) (result : Result) (ps : option Z) :
  setup_ok w ->
  SafeRun (submission w) = Ret (result, None, ps) ->
  Tle result = false ->
  (ExitCode ps = 0 \/ ExitCode ps = 124)
  /\ (ExitCode ps = 124 ->
      TestCase w = Ret (verdict "Broken" result,
                        Some "executor return non 0, 124 code")).
Proof.
  intros Hsetup Hsub Htle. split; [apply (SafeRun_ok _ _ _ Hsub)|].
  intros H124. enter_setup Hsetup. rewrite Hsub. cbn.
  now rewrite Htle, H124.
Qed.

(** C6, the code at the failing input: the executor of the submission exits
    with 124 and its result file says [tle = false]. [SafeRun] returns no
    error, and [TestCase] returns Broken, with an error that says the exit code
    was neither 0 nor 124. *)
Lemma TestCase_exit_124_without_tle :
  let w := case_of (exec_exit 124 (parsed 0 false))
                   (exec_exit 0 (parsed 0 false)) in
  SafeRun (submission w) = Ret (parsed 0 false, None, Some 124)
  /\ TestCase w =
     Ret ({| CaseName := ""; Status := "Broken";
             EmbeddedResult := parsed 0 false |},
          Some "executor return non 0, 124 code").
Proof. cbn zeta. split; reflexivity. Qed.

(** C9. A [CaseResult] whose status is Broken comes with an error. *)
Theorem TestCase_Broken_has_error (w : Case) (cr : CaseResult)
    (err : option error) :
  TestCase w = Ret (cr, err) -> Status cr = "Broken" -> err <> None.
Proof.
  intros H HBroken. unfold TestCase, or_return, mbind, go_bind in H.
  repeat (case_match; simplify_eq; try discriminate);
    cbn in HBroken; discriminate.
Qed.

(** The theorem at a checker run whose executor exits with 124 while its
    result file reports no time-out. *)
Lemma TestCase_Broken_has_error_witness :
  Some "executor return non 0, 124 code" <> (None : option error).
Proof.
  apply (TestCase_Broken_has_error
           (case_of (exec_exit 0 (parsed 0 false))
                    (exec_exit 124 (parsed 0 false)))
           (verdict "Broken" (parsed 0 false))); reflexivity.
Defined.

End TestCaseFacts.

(** ** The submission lock *)

Section LockFacts.

Implicit Types (db : lock_table) (c : Call).

(** For an id other than 0, [TryLockSubmission] works on the row of that id:
    the row's holder and ping, or the caller's name and the zero time when the
    row is created, decide; a refusal leaves the table, a success writes the
    row. *)
Lemma TryLockSubmission_keyed db (w : Tx) (id : Z) (name : string) :
  id <> 0 ->
  TryLockSubmission db w id name =
  match begin_err w with
  | Some err => (db, (false, Some err))
  | None =>
  match first_or_create_err w with
  | Some err => (db, (false, Some err))
  | None =>
      let holder := match db !! id with Some (n, _) => n | None => name end in
      let ping :=
        match db !! id with Some (_, p) => p | None => time_zero end in
      if negb (String.eqb holder name) && (now w <? ping + LOCK_TIME)
      then match commit_err w with
           | Some err => (db, (false, Some err))
           | None => (db, (false, None))
           end
      else match save_err w with
           | Some err => (db, (false, Some err))
           | None =>
               match commit_err w with
               | Some err => (db, (false, Some err))
               | None => (<[id := (name, now w)]> db, (true, None))
               end
           end
  end
  end.
Proof.
  intros Hid. apply Z.eqb_neq in Hid.
  unfold TryLockSubmission, FirstOrCreate, Save. rewrite Hid.
  destruct (begin_err w); [reflexivity|].
  destruct (first_or_create_err w); [reflexivity|].
  destruct (db !! id) as [[n p]|]; cbn [Name Ping ID row_of]; rewrite ?Hid.
  - reflexivity.
  - rewrite String.eqb_refl. cbn. now rewrite insert_insert_eq.
Qed.








End LockFacts.

(** * More properties *)

(** ** outputStripper, continued *)

Section MoreStripperFacts.
Import Stripper.

(** The state of a fresh capper of capacity [n > 20] after the writes [ws]. *)
Lemma write_all_new (n : Z) (ws : list (list byte)) :
  20 < n ->
  write_all (new n) ws =
    Ret ({| N := n; data := take (Z.to_nat (n - 20)) (concat ws);
            overflow := n - 20 <? len (concat ws) |}, None).
Proof.
  intros Hn. rewrite write_all_fits; [|exact Hn|unfold fits, len; cbn; lia].
  cbn [N data overflow new app orb]. change (len (@nil byte)) with 0.
  now rewrite Z.sub_0_r.
Qed.

(** X1. What a capper holds depends on the bytes written, not on how the
    writes cut them: two sequences of writes with the same concatenation leave
    a fresh capper in the same state, hence with the same snapshot. *)
Theorem snapshot_ignores_chunking (n : Z) (ws1 ws2 : list (list byte)) :
  20 < n -> concat ws1 = concat ws2 ->
  exists os : outputStripper,
    write_all (new n) ws1 = Ret (os, None)
    /\ write_all (new n) ws2 = Ret (os, None).
Proof.
  intros Hn Hcat. eexists. rewrite !write_all_new by exact Hn.
  rewrite Hcat. split; reflexivity.
Qed.

Lemma snapshot_ignores_chunking_witness :
  exists os : outputStripper,
    write_all (new 22) [["a"]; ["b"; "c"]]%byte = Ret (os, None)
    /\ write_all (new 22) [["a"; "b"]; []; ["c"]]%byte = Ret (os, None).
Proof.
  apply (snapshot_ignores_chunking 22 [["a"]; ["b"; "c"]]%byte
           [["a"; "b"]; []; ["c"]]%byte); [lia|reflexivity].
Defined.

(** X2. The overflow flag latches: once a capper has overflowed, every further
    sequence of writes is accepted and leaves it exactly as it is, so its
    snapshot no longer changes. *)
Theorem overflow_latches (n : Z) (ws ws' : list (list byte))
    (os : outputStripper) :
  20 < n ->
  write_all (new n) ws = Ret (os, None) ->
  overflow os = true ->
  write_all os ws' = Ret (os, None).
Proof.
  intros Hn Hos Hov. rewrite write_all_new in Hos by exact Hn.
  injection Hos as <-. cbn [overflow] in Hov.
  apply Z.ltb_lt in Hov.
  assert (Hlen : len (take (Z.to_nat (n - 20)) (concat ws)) = n - 20)
    by (rewrite len_take by lia; lia).
  rewrite write_all_fits; cbn [N data overflow];
    [|exact Hn|unfold fits; cbn [N data]; lia].
  rewrite Hlen, Z.sub_diag. cbn [Z.to_nat take]. rewrite app_nil_r.
  apply Z.ltb_lt in Hov. rewrite Hov. reflexivity.
Qed.

Lemma overflow_latches_witness :
  write_all {| N := 21; data := ["a"%byte]; overflow := true |}
    [["c"; "d"]%byte; ["e"%byte]]
  = Ret ({| N := 21; data := ["a"%byte]; overflow := true |}, None).
Proof.
  apply (overflow_latches 21 [["a"; "b"]%byte]); [lia|reflexivity|reflexivity].
Defined.

(** X3. The retained bytes are only ever extended: what a capper holds after
    some writes is a prefix of what it holds after more writes. *)
Theorem retained_bytes_only_grow (n : Z) (ws1 ws2 : list (list byte))
    (os1 os2 : outputStripper) :
  20 < n ->
  write_all (new n) ws1 = Ret (os1, None) ->
  write_all (new n) (ws1 ++ ws2) = Ret (os2, None) ->
  data os1 `prefix_of` data os2.
Proof.
  intros Hn H1 H2. rewrite write_all_new in H1, H2 by exact Hn.
  injection H1 as <-. injection H2 as <-. cbn [data].
  rewrite concat_app, take_app. apply prefix_app_r. reflexivity.
Qed.

Lemma retained_bytes_only_grow_witness :
  ["a"; "b"]%byte `prefix_of` ["a"; "b"; "c"]%byte.
Proof.
  apply (retained_bytes_only_grow 23 [["a"; "b"]%byte] [["c"; "d"]%byte]
           {| N := 23; data := ["a"; "b"]%byte; overflow := false |}
           {| N := 23; data := ["a"; "b"; "c"]%byte; overflow := true |});
    [lia|reflexivity|reflexivity].
Defined.

End MoreStripperFacts.

(** ** SafeRun and the compile steps, continued *)

Section MoreRunnerFacts.

Lemma len_captured (ws : list (list byte)) :
  Stripper.len (Stripper.Bytes (captured ws)) <= 2041.
Proof.
  unfold Stripper.Bytes, captured. cbn [Stripper.data Stripper.overflow].
  rewrite len_app. change 2028%nat with (Z.to_nat 2028).
  rewrite len_take by lia.
  destruct (2028 <? Stripper.len (concat ws));
    [rewrite len_stripped|change (Stripper.len (@nil byte)) with 0]; lia.
Qed.

(** X4. [SafeRun] returns without an error exactly when the temporary file and
    the executor were found, the executor exited with 0 (and its output was
    copied without error) or with 124, and the result file was read and
    parsed; it then returns the parsed fields, the captured stderr and the
    executor's process state. *)
Theorem SafeRun_succeeds_iff (x : Exec) (r : Result) (ps : option Z) :
  SafeRun x = Ret (r, None, ps) <->
  temp_file x = None /\ look_path x = None
  /\ (run x = Exited 0 None \/ exists copy_err, run x = Exited 124 copy_err)
  /\ read_file x = None
  /\ (exists r0, unmarshal x = inr r0
      /\ r = {| ReturnCode := ReturnCode r0; Time := Time r0;
                Memory := Memory r0; Tle := Tle r0;
                Stderr := Stripper.Bytes (captured (stderr_writes x)) |})
  /\ ps = ProcessState_of (run x).
Proof.
  rewrite SafeRun_cases. unfold read_result, Run_err. split.
  - destruct (temp_file x); [discriminate|].
    destruct (look_path x); [discriminate|].
    destruct (run x) as [e|code ce]; cbn; [intros [=]|].
    destruct (Z.eqb_spec code 0) as [->|Hne].
    + destruct ce as [e|]; cbn; [intros [=]|].
      destruct (read_file x); [intros [=]|].
      destruct (unmarshal x) as [e|r0]; intros [=]; subst.
      repeat split; eauto.
    + destruct (Z.eqb_spec code 124) as [->|Hne']; [|intros [=]].
      destruct (read_file x); [intros [=]|].
      destruct (unmarshal x) as [e|r0]; intros [=]; subst.
      repeat split; eauto.
  - intros (-> & -> & Hrun & -> & (r0 & -> & ->) & ->).
    destruct Hrun as [->|(ce & ->)]; reflexivity.
Qed.

(** X5. [SafeRun] always returns, and the stderr it returns is at most 2041
    bytes long: the 2028 bytes the capper keeps and the 13 of the sentinel. *)
Theorem SafeRun_stderr_capped (x : Exec) :
  exists r e ps, SafeRun x = Ret (r, e, ps)
                 /\ Stripper.len (Stderr r) <= 2041.
Proof.
  rewrite SafeRun_cases. unfold read_result.
  pose proof (len_captured (stderr_writes x)) as Hcap.
  destruct (temp_file x), (look_path x), (Run_err (run x)),
    (ExitCode (ProcessState_of (run x)) =? 124), (read_file x), (unmarshal x);
    do 3 eexists; (split; [reflexivity|]); cbn [Stderr]; try exact Hcap;
    vm_compute; discriminate.
Qed.

(** X6. With an error [SafeRun] never returns a partly filled result: either
    [Result{ReturnCode: -1, Time: -1, Memory: -1}], when the run of the
    executor gave the error and its exit code is not 124, or [Result{}], when
    the error is that of the temporary file, of the search for the executor,
    of the reading or of the parsing of the result file. *)
Theorem SafeRun_error_result (x : Exec) (r : Result) (e : error)
    (ps : option Z) :
  SafeRun x = Ret (r, Some e, ps) ->
  (r = {| ReturnCode := -1; Time := (-1)%float; Memory := -1; Tle := false;
          Stderr := [] |}
   /\ Run_err (run x) = Some e /\ ExitCode ps <> 124)
  \/ (r = {| ReturnCode := 0; Time := 0%float; Memory := 0; Tle := false;
             Stderr := [] |}
      /\ (temp_file x = Some e \/ look_path x = Some e
          \/ read_file x = Some e \/ unmarshal x = inl e)).
Proof.
  rewrite SafeRun_cases. unfold read_result.
  destruct (temp_file x) eqn:Htmp; [intros [=]; subst; right; auto|].
  destruct (look_path x) eqn:Hlook; [intros [=]; subst; right; auto|].
  destruct (Run_err (run x)) eqn:Herr;
    [destruct (Z.eqb_spec (ExitCode (ProcessState_of (run x))) 124)|];
    try (intros [=]; subst; left; now auto);
    destruct (read_file x) eqn:Hread;
    try (intros [=]; subst; right; now auto 6);
    destruct (unmarshal x) eqn:Hparse; intros [=]; subst; right; auto 6.
Qed.

Lemma SafeRun_error_result_witness :
  (Result_failed
   = {| ReturnCode := -1; Time := (-1)%float; Memory := -1; Tle := false;
        Stderr := [] |}
   /\ Run_err (run (exec_exit 2 (parsed 0 false))) = Some "exit status"
   /\ ExitCode (Some 2) <> 124)
  \/ (Result_failed
      = {| ReturnCode := 0; Time := 0%float; Memory := 0; Tle := false;
           Stderr := [] |}
      /\ (temp_file (exec_exit 2 (parsed 0 false)) = Some "exit status"
          \/ look_path (exec_exit 2 (parsed 0 false)) = Some "exit status"
          \/ read_file (exec_exit 2 (parsed 0 false)) = Some "exit status"
          \/ unmarshal (exec_exit 2 (parsed 0 false)) = inl "exit status")).
Proof.
  apply (SafeRun_error_result (exec_exit 2 (parsed 0 false)) Result_failed
           "exit status" (Some 2)). reflexivity.
Defined.

(** X7. The compile steps: an error of the tokenizer is returned with
    [Result{}]; a command without a token makes the call panic, and nothing
    else does; a run of the compiler that [SafeRun] reports without error is
    returned without error, whatever the compiler's return code. *)
Theorem Compile_outcomes (split : error + list string) (x : Exec) :
  ((exists msg, CompileSource split x = Panic msg) <-> split = inr [])
  /\ ((exists msg, CompileChecker split x = Panic msg) <-> split = inr [])
  /\ (forall err, split = inl err ->
      CompileSource split x = Ret (Result_zero, Some err)
      /\ CompileChecker split x = Ret (Result_zero, Some err))
  /\ (forall t ts r ps, split = inr (t :: ts) ->
      SafeRun x = Ret (r, None, ps) ->
      CompileSource split x = Ret (r, None)
      /\ CompileChecker split x = Ret (r, None)).
Proof.
  destruct (SafeRun_returns x) as ([[r e] ps] & Hrun).
  unfold CompileSource, CompileChecker.
  destruct split as [err|[|t ts]]; rewrite ?Hrun; cbn.
  - repeat split; try (intros (msg & [=])); try discriminate;
      intros; simplify_eq; reflexivity.
  - repeat split; eauto; intros; simplify_eq.
  - repeat split; try (intros (msg & [=])); try discriminate;
      intros; simplify_eq; reflexivity.
Qed.

End MoreRunnerFacts.

(** ** TestCase, continued *)

Section MoreTestCaseFacts.

(** Splits a return of [TestCase] into the returns of the code. *)
Ltac returns_of H :=
  unfold TestCase, or_return, mbind, go_bind in H;
  repeat (case_match; simplify_eq; try discriminate).

Ltac through_setup H :=
  let Hf := fresh "Hfields" in
  unfold TestCase;
  destruct H as (-> & -> & -> & -> & -> & -> & -> & Hf); cbn [or_return];
  match type of Hf with
  | ?l <> [] => destruct l; [contradiction|]
  end.

Lemma ExitCode_124 (ps : option Z) : ExitCode ps = 124 -> ps = Some 124.
Proof. destruct ps; cbn; [now intros ->|discriminate]. Qed.

(** X8. A return of [TestCase] is either a verdict without an error, one of
    TLE, RE, ITLE, WA, PE, Fail, Unknown and AC, or an error, with the zero
    [CaseResult] or with the status Broken. *)
Theorem TestCase_verdict_or_error (w : Case) (cr : CaseResult)
    (err : option error) :
  TestCase w = Ret (cr, err) ->
  (err = None /\ Status cr ∈ verdicts)
  \/ (err <> None /\ (cr = CaseResult_zero \/ Status cr = "Broken")).
Proof.
  intros H. returns_of H;
    first [ right; split; [discriminate|]; (left + right); reflexivity
          | left; split; [reflexivity|]; cbn; unfold verdicts;
            repeat first [apply list_elem_of_here
                         |apply list_elem_of_further] ].
Qed.

Lemma TestCase_verdict_or_error_witness :
  (None = (None : option error)
   /\ Status (verdict "WA" (parsed 0 false)) ∈ verdicts)
  \/ ((None : option error) <> None
      /\ (verdict "WA" (parsed 0 false) = CaseResult_zero
          \/ Status (verdict "WA" (parsed 0 false)) = "Broken")).
Proof.
  apply (TestCase_verdict_or_error
           (case_of (exec_exit 0 (parsed 0 false))
                    (exec_exit 0 (parsed 1 false)))). reflexivity.
Defined.

(** X9. Whatever the status, a [CaseResult] other than the zero one carries
    the result of the submission's own run, never the checker's, and no case
    name. *)
Theorem TestCase_carries_submission_result (w : Case) (cr : CaseResult)
    (err : option error) :
  TestCase w = Ret (cr, err) -> cr <> CaseResult_zero ->
  CaseName cr = ""
  /\ exists ps, SafeRun (submission w) = Ret (EmbeddedResult cr, None, ps).
Proof.
  intros H Hnz. returns_of H; try contradiction; cbn; eauto.
Qed.

Lemma TestCase_carries_submission_result_witness :
  CaseName (verdict "WA" (parsed 0 false)) = ""
  /\ exists ps,
       SafeRun (submission (case_of (exec_exit 0 (parsed 0 false))
                                    (exec_exit 0 (parsed 1 false))))
       = Ret (EmbeddedResult (verdict "WA" (parsed 0 false)), None, ps).
Proof.
  apply (TestCase_carries_submission_result
           (case_of (exec_exit 0 (parsed 0 false))
                    (exec_exit 0 (parsed 1 false)))
           (verdict "WA" (parsed 0 false)) None); [reflexivity|discriminate].
Defined.

(** X10. The checker is not consulted unless the submission's run is clean:
    when that run gives an error, a time-out, an executor exit other than 0 or
    a return code other than 0, the outcome of [TestCase] is the same whatever
    the run of the checker would do. *)
Theorem checker_not_consulted (w : Case) (chk : Exec) (r : Result)
    (e : option error) (ps : option Z) :
  SafeRun (submission w) = Ret (r, e, ps) ->
  e <> None \/ Tle r = true \/ ExitCode ps <> 0 \/ ReturnCode r <> 0 ->
  TestCase (set_checker chk w) = TestCase w.
Proof.
  intros Hsub Hwhy. unfold TestCase, set_checker. cbn.
  rewrite Hsub. unfold or_return. cbn.
  repeat (case_match; try reflexivity); simplify_eq;
    destruct Hwhy as [?|[?|[?|?]]]; try congruence; try lia; try discriminate.
Qed.

Lemma checker_not_consulted_witness :
  TestCase (set_checker (exec_exit 1 (parsed 3 false))
              (case_of (exec_exit 0 (parsed 5 false))
                       (exec_exit 0 (parsed 0 false))))
  = TestCase (case_of (exec_exit 0 (parsed 5 false))
                      (exec_exit 0 (parsed 0 false))).
Proof.
  apply (checker_not_consulted _ _ (parsed 5 false) None (Some 0));
    [reflexivity|]. right. right. right. cbn. lia.
Defined.

(** X11. The verdicts of the submission's own run: a time-out reported by the
    result file gives TLE whatever the executor's exit code and the return
    code; without a time-out, executor exit 0 and a return code other than 0
    give RE. Neither comes with an error. *)
Theorem phase1_verdicts (w : Case) (r : Result) (ps : option Z) :
  setup_ok w ->
  SafeRun (submission w) = Ret (r, None, ps) ->
  (Tle r = true -> TestCase w =
    Ret ({| CaseName := ""; Status := "TLE";
            EmbeddedResult := r |}, None))
  /\ (Tle r = false -> ExitCode ps = 0 -> ReturnCode r <> 0 ->
      TestCase w =
        Ret ({| CaseName := ""; Status := "RE";
                EmbeddedResult := r |}, None)).
Proof.
  intros Hsetup Hsub. through_setup Hsetup. rewrite Hsub. cbn. split.
  - intros ->. reflexivity.
  - intros -> -> Hrc. apply Z.eqb_neq in Hrc. cbn. now rewrite Hrc.
Qed.

Lemma phase1_verdicts_witness :
  TestCase (case_of (exec_exit 124 (parsed 9 true))
                    (exec_exit 0 (parsed 0 false)))
  =
    Ret ({| CaseName := ""; Status := "TLE";
            EmbeddedResult := (parsed 9 true) |}, None)
  /\ TestCase (case_of (exec_exit 0 (parsed 9 false))
                       (exec_exit 0 (parsed 0 false)))
     =
       Ret ({| CaseName := ""; Status := "RE";
               EmbeddedResult := (parsed 9 false) |}, None).
Proof.
  split.
  - apply (phase1_verdicts
             (case_of (exec_exit 124 (parsed 9 true))
                      (exec_exit 0 (parsed 0 false)))
             (parsed 9 true) (Some 124)); try reflexivity.
    unfold setup_ok. cbn. repeat split. discriminate.
  - apply (phase1_verdicts
             (case_of (exec_exit 0 (parsed 9 false))
                      (exec_exit 0 (parsed 0 false)))
             (parsed 9 false) (Some 0)); try reflexivity.
    + unfold setup_ok. cbn. repeat split. discriminate.
    + cbn. lia.
Defined.

(** X12. The status Broken is only ever returned when an executor, that of the
    submission or, after a clean run of the submission, that of the checker,
    exited with 124 while its result file reports no time-out. *)
Theorem Broken_means_exit_124 (w : Case) (cr : CaseResult)
    (err : option error) :
  TestCase w = Ret (cr, err) -> Status cr = "Broken" ->
  (exists r, SafeRun (submission w) = Ret (r, None, Some 124)
             /\ Tle r = false)
  \/ (exists r c ps,
        SafeRun (submission w) = Ret (r, None, ps) /\ ExitCode ps = 0
        /\ Tle r = false /\ ReturnCode r = 0
        /\ SafeRun (checker w) = Ret (c, None, Some 124) /\ Tle c = false).
Proof.
  intros H HBroken. returns_of H; cbn in HBroken; try discriminate.
  - left.
    match goal with
    | Hs : SafeRun (submission w) = Ret (_, None, ?ps) |- _ =>
        destruct (SafeRun_ok _ _ _ Hs) as ([Hzero|H124] & _);
        [rewrite Hzero in *; discriminate
        |apply ExitCode_124 in H124; subst ps]
    end.
    eauto.
  - right.
    repeat match goal with
      | Hb : negb _ = false |- _ =>
          apply negb_false_iff, Z.eqb_eq in Hb
      end.
    match goal with
    | Hs : SafeRun (checker w) = Ret (_, None, ?ps) |- _ =>
        destruct (SafeRun_ok _ _ _ Hs) as ([Hzero|H124] & _);
        [rewrite Hzero in *; discriminate
        |apply ExitCode_124 in H124; subst ps]
    end.
    do 3 eexists. repeat split; eassumption || reflexivity.
Qed.

Lemma Broken_means_exit_124_witness :
  (exists r,
     SafeRun (submission (case_of (exec_exit 0 (parsed 0 false))
                                  (exec_exit 124 (parsed 0 false))))
     = Ret (r, None, Some 124) /\ Tle r = false)
  \/ (exists r c ps,
        SafeRun (submission (case_of (exec_exit 0 (parsed 0 false))
                                     (exec_exit 124 (parsed 0 false))))
        = Ret (r, None, ps) /\ ExitCode ps = 0
        /\ Tle r = false /\ ReturnCode r = 0
        /\ SafeRun (checker (case_of (exec_exit 0 (parsed 0 false))
                                     (exec_exit 124 (parsed 0 false))))
           = Ret (c, None, Some 124) /\ Tle c = false).
Proof.
  apply (Broken_means_exit_124
           (case_of (exec_exit 0 (parsed 0 false))
                    (exec_exit 124 (parsed 0 false)))
           (verdict "Broken" (parsed 0 false))
           (Some "executor return non 0, 124 code")); reflexivity.
Defined.

(** X13. [TestCase] panics exactly when its files were written and the
    language's exec command has no field, so that taking the command and its
    arguments from the empty [arg] is out of range; with at least one field it
    always returns. *)
Theorem TestCase_panics_iff (w : Case) :
  (exists msg, TestCase w = Panic msg) <-> files_ok w /\ exec_fields w = [].
Proof.
  split.
  - intros (msg & H).
    destruct (SafeRun_returns (submission w)) as (vs & Hs).
    destruct (SafeRun_returns (checker w)) as (vc & Hc).
    unfold TestCase, or_return in H. rewrite Hs, Hc in H.
    unfold mbind, go_bind in H. unfold files_ok.
    repeat (case_match; simplify_eq; try discriminate). repeat split.
  - intros (Hfiles & Hf). unfold TestCase.
    destruct Hfiles as (-> & -> & -> & -> & -> & -> & ->).
    cbn. rewrite Hf. eauto.
Qed.

End MoreTestCaseFacts.

(** ** AggregateResults, continued *)

Section MoreAggregateFacts.

Lemma AggregateResults_loop (cs : list CaseResult) :
  AggregateResults cs = loop ans0 cs.
Proof. reflexivity. Qed.

Lemma status_at_split (ans : CaseResult) (pre post : list CaseResult)
    (c : CaseResult) :
  Status c <> "AC" -> Forall (fun d => Status d = "AC") post ->
  Status (loop ans (pre ++ c :: post)) = Status c.
Proof.
  intros Hne Hpost. rewrite loop_app. cbn [loop fold_left].
  fold (loop (AggregateResults_body (loop ans pre) c) post).
  rewrite status_kept by exact Hpost.
  rewrite body_Status. apply String.eqb_neq in Hne. now rewrite Hne.
Qed.

Lemma status_loop (cs : list CaseResult) :
  forall ans,
  Status (loop ans cs)
  = if String.eqb (Status (loop ans0 cs)) "AC" then Status ans
    else Status (loop ans0 cs).
Proof.
  induction cs as [|c cs IH]; intros ans; [reflexivity|].
  cbn [loop fold_left].
  fold (loop (AggregateResults_body ans c) cs).
  fold (loop (AggregateResults_body ans0 c) cs).
  rewrite (IH (AggregateResults_body ans c)).
  rewrite (IH (AggregateResults_body ans0 c)).
  rewrite !body_Status.
  destruct (String.eqb_spec (Status (loop ans0 cs)) "AC") as [HAC|Hne].
  - destruct (String.eqb_spec (Status c) "AC") as [Hc|Hc]; cbn.
    + reflexivity.
    + apply String.eqb_neq in Hc. now rewrite Hc.
  - apply String.eqb_neq in Hne. now rewrite Hne.
Qed.

Lemma memory_loop (cs : list CaseResult) :
  forall ans, -1 <= case_memory ans ->
  case_memory (loop ans cs)
  = Z.max (case_memory ans) (case_memory (loop ans0 cs)).
Proof.
  induction cs as [|c cs IH]; intros ans Hans.
  - cbn. change (case_memory ans0) with (-1). lia.
  - cbn [loop fold_left].
    fold (loop (AggregateResults_body ans c) cs).
    fold (loop (AggregateResults_body ans0 c) cs).
    rewrite (IH (AggregateResults_body ans c)) by (rewrite body_memory; lia).
    rewrite (IH (AggregateResults_body ans0 c))
      by (rewrite body_memory; change (case_memory ans0) with (-1); lia).
    rewrite !body_memory. change (case_memory ans0) with (-1).
    pose proof (memory_grows cs ans0) as Hlow.
    change (case_memory ans0) with (-1) in Hlow. lia.
Qed.

Lemma loop_AC_iff (cs : list CaseResult) :
  Status (loop ans0 cs) = "AC" <-> Forall (fun c => Status c = "AC") cs.
Proof.
  split.
  - intros HAC.
    destruct (decide (Forall (fun c => Status c = "AC") cs)) as [Hall|Hnot];
      [exact Hall|exfalso].
    apply not_Forall_Exists in Hnot; [|intros d; apply _].
    apply Exists_exists in Hnot as (d & Hd & Hdne).
    destruct (last_non_AC_split cs) as (pre & c & post & -> & Hne & Hpost);
      [now exists d|].
    rewrite status_at_split in HAC by assumption. contradiction.
  - intros Hall. now rewrite status_kept.
Qed.

(** X14. The aggregate's status is AC exactly when every case is AC; in
    particular it is AC for no case at all. *)
Theorem AggregateResults_AC_iff (cs : list CaseResult) :
  Status (AggregateResults cs) = "AC"
  <-> Forall (fun c => Status c = "AC") cs.
Proof. rewrite AggregateResults_loop. apply loop_AC_iff. Qed.

(** X15. Aggregating a concatenation: the memory is the larger of the two
    aggregates' memories, and the status is that of the second aggregate
    unless it is AC, in which case it is that of the first. *)
Theorem AggregateResults_app (cs1 cs2 : list CaseResult) :
  case_memory (AggregateResults (cs1 ++ cs2))
  = Z.max (case_memory (AggregateResults cs1))
          (case_memory (AggregateResults cs2))
  /\ Status (AggregateResults (cs1 ++ cs2))
     = if String.eqb (Status (AggregateResults cs2)) "AC"
       then Status (AggregateResults cs1)
       else Status (AggregateResults cs2).
Proof.
  rewrite !AggregateResults_loop, loop_app. split.
  - apply memory_loop. apply (memory_grows cs1 ans0).
  - apply status_loop.
Qed.

(** X16. The order of the cases does not matter to the aggregate's memory,
    nor to whether its status is AC. *)
Theorem AggregateResults_Permutation (cs1 cs2 : list CaseResult) :
  cs1 ≡ₚ cs2 ->
  case_memory (AggregateResults cs1) = case_memory (AggregateResults cs2)
  /\ (Status (AggregateResults cs1) = "AC"
      <-> Status (AggregateResults cs2) = "AC").
Proof.
  intros Hperm. rewrite !AggregateResults_loop. split.
  - assert (Hle : forall l1 l2 : list CaseResult, l1 ≡ₚ l2 ->
              case_memory (loop ans0 l1) <= case_memory (loop ans0 l2)).
    { intros l1 l2 H12.
      destruct (memory_attained l1 ans0) as [->|(c & Hc & ->)].
      - apply memory_grows.
      - apply memory_upper. now rewrite <- H12. }
    apply Z.le_antisymm; apply Hle; [exact Hperm|now symmetry].
  - rewrite !loop_AC_iff. now rewrite Hperm.
Qed.

Lemma AggregateResults_Permutation_witness :
  case_memory (AggregateResults
                 [verdict "WA" (parsed 0 false); verdict "AC" Result_zero])
  = case_memory (AggregateResults
                   [verdict "AC" Result_zero; verdict "WA" (parsed 0 false)])
  /\ (Status (AggregateResults
                [verdict "WA" (parsed 0 false); verdict "AC" Result_zero])
      = "AC"
      <-> Status (AggregateResults
                    [verdict "AC" Result_zero; verdict "WA" (parsed 0 false)])
          = "AC").
Proof.
  apply (AggregateResults_Permutation
           [verdict "WA" (parsed 0 false); verdict "AC" Result_zero]
           [verdict "AC" Result_zero; verdict "WA" (parsed 0 false)]).
  apply perm_swap.
Defined.

Lemma body_fixed (ans res : CaseResult) :
  CaseName (AggregateResults_body ans res) = CaseName ans
  /\ ReturnCode (EmbeddedResult (AggregateResults_body ans res))
     = ReturnCode (EmbeddedResult ans)
  /\ Tle (EmbeddedResult (AggregateResults_body ans res))
     = Tle (EmbeddedResult ans)
  /\ Stderr (EmbeddedResult (AggregateResults_body ans res))
     = Stderr (EmbeddedResult ans).
Proof.
  unfold AggregateResults_body.
  destruct (negb (String.eqb (Status res) "AC")); cbn;
    destruct (PrimFloat.ltb _ _); cbn; destruct (_ <? _); cbn;
    repeat split.
Qed.

(** X17. The aggregate takes only status, time and memory from the cases: it
    has no case name, its return code is -1, its time-out flag is unset and
    its stderr is empty, whatever the cases hold. *)
Theorem AggregateResults_fixed_fields (cs : list CaseResult) :
  let a := AggregateResults cs in
  CaseName a = ""
  /\ ReturnCode (EmbeddedResult a) = -1
  /\ Tle (EmbeddedResult a) = false
  /\ Stderr (EmbeddedResult a) = [].
Proof.
  cbn zeta. rewrite AggregateResults_loop.
  change (CaseName (loop ans0 cs) = CaseName ans0
          /\ ReturnCode (EmbeddedResult (loop ans0 cs))
             = ReturnCode (EmbeddedResult ans0)
          /\ Tle (EmbeddedResult (loop ans0 cs)) = Tle (EmbeddedResult ans0)
          /\ Stderr (EmbeddedResult (loop ans0 cs))
             = Stderr (EmbeddedResult ans0)).
  generalize ans0. induction cs as [|c cs IH]; intros ans; [now cbn|].
  cbn [loop fold_left]. fold (loop (AggregateResults_body ans c) cs).
  destruct (IH (AggregateResults_body ans c)) as (-> & -> & -> & ->).
  apply body_fixed.
Qed.

(** X18. The aggregate's time is never NaN, even when times of the cases
    are: a NaN is above nothing, so the loop never takes it. *)
Theorem AggregateResults_time_not_NaN (cs : list CaseResult) :
  PrimFloat.eqb (case_time (AggregateResults cs))
                (case_time (AggregateResults cs)) = true.
Proof. rewrite AggregateResults_loop. apply time_not_nan. reflexivity. Qed.

End MoreAggregateFacts.

(** ** The submission lock, continued *)

Section MoreLockFacts.

Implicit Types (db : lock_table) (w : Tx).

Lemma claim_succeeds db w (id : Z) (name : string) :
  id <> 0 -> no_db_error w -> claimable (db !! id) name (now w) ->
  TryLockSubmission db w id name
  = (<[id := (name, now w)]> db, (true, None)).
Proof.
  intros Hid (Hb & Hf & Hs & Hc) Hclaim.
  rewrite TryLockSubmission_keyed by exact Hid. rewrite Hb, Hf, Hs, Hc.
  destruct (db !! id) as [[holder ping]|] eqn:Hrow; cbn in *.
  - destruct Hclaim as [->|Hstale].
    + now rewrite String.eqb_refl.
    + destruct (Z.ltb_spec (now w) (ping + LOCK_TIME)); [lia|].
      now rewrite andb_false_r.
  - now rewrite String.eqb_refl.
Qed.

Lemma live_lock_refuses db w (id : Z) (name holder : string) (ping : time) :
  id <> 0 ->
  db !! id = Some (holder, ping) -> holder <> name ->
  now w < ping + LOCK_TIME ->
  exists e, TryLockSubmission db w id name = (db, (false, e)).
Proof.
  intros Hid Hrow Hne Hlive.
  rewrite TryLockSubmission_keyed by exact Hid.
  destruct (begin_err w); [eauto|].
  destruct (first_or_create_err w); [eauto|].
  rewrite Hrow. cbn zeta.
  apply String.eqb_neq in Hne. rewrite Hne.
  destruct (Z.ltb_spec (now w) (ping + LOCK_TIME)); [|lia].
  cbn. destruct (commit_err w); eauto.
Qed.

(** What [FirstOrCreate] returns: a row of the table, left as it is, or a new
    row that names the caller. *)
Lemma FirstOrCreate_cases db (auto : positive) (id : Z) (name : string) :
  fst (FirstOrCreate db auto id name) = db
  \/ Name (snd (FirstOrCreate db auto id name)) = name.
Proof.
  unfold FirstOrCreate.
  destruct (if id =? 0 then first_row db
            else match db !! id with
                 | Some row => Some (id, row)
                 | None => None
                 end) as [[key [n p]]|]; cbn; auto.
Qed.

(** X19. For an id other than 0 and without a database error,
    [TryLockSubmission] succeeds exactly when the submission has no lock row,
    or the caller already holds it (whatever the time: this is the heartbeat),
    or [LOCK_TIME] has passed since the last ping (a stale lock is taken
    over); it then leaves the caller as holder with the ping at the time of
    the call. Otherwise it returns false and leaves the table as it was. *)
Theorem TryLockSubmission_claim db w (id : Z) (name : string) :
  id <> 0 -> no_db_error w ->
  (claimable (db !! id) name (now w) ->
   TryLockSubmission db w id name
   = (<[id := (name, now w)]> db, (true, None)))
  /\ (~ claimable (db !! id) name (now w) ->
      TryLockSubmission db w id name = (db, (false, None))).
Proof.
  intros Hid Hok. split; [now apply claim_succeeds|].
  intros Hnot. destruct (db !! id) as [[holder ping]|] eqn:Hrow;
    [|now destruct Hnot].
  cbn in Hnot.
  destruct (live_lock_refuses db w id name holder ping Hid Hrow)
    as (e & He).
  - intros ->. apply Hnot. now left.
  - destruct (Z.lt_ge_cases (now w) (ping + LOCK_TIME)); [assumption|].
    exfalso. apply Hnot. now right.
  - rewrite He. destruct Hok as (Hb & Hf & Hs & Hc).
    rewrite TryLockSubmission_keyed in He by exact Hid.
    rewrite Hb, Hf, Hc, Hrow in He. cbn zeta in He.
    destruct (_ && _) in He; cbn in He; [|rewrite Hs in He];
      now injection He as <-.
Qed.

(** A lock of judge-a pinged at second 0 is taken over by judge-b at second
    60. *)
Lemma TryLockSubmission_claim_witness :
  TryLockSubmission {[7 := ("judge-a", 0)]}
    (call_tx (call_at 7 "judge-b" 60)) 7 "judge-b"
  = (<[7 := ("judge-b", 60000000000)]> {[7 := ("judge-a", 0)]},
     (true, None)).
Proof.
  apply (TryLockSubmission_claim {[7 := ("judge-a", 0)]}
           (call_tx (call_at 7 "judge-b" 60)) 7 "judge-b").
  - lia.
  - repeat split.
  - right. vm_compute. discriminate.
Defined.

(** X20. A call that does not succeed changes nothing, whatever the id:
    whenever [TryLockSubmission] returns false the table is as before the
    call, and it returns false whenever it returns an error. *)
Theorem failed_TryLockSubmission_changes_nothing db w (id : Z)
    (name : string) :
  let r := TryLockSubmission db w id name in
  (snd (snd r) <> None -> fst (snd r) = false)
  /\ (fst (snd r) = false -> fst r = db).
Proof.
  cbn zeta. unfold TryLockSubmission.
  destruct (begin_err w); [now split|].
  destruct (first_or_create_err w); [now split|].
  pose proof (FirstOrCreate_cases db (auto_id w) id name) as Hcases.
  destruct (FirstOrCreate db (auto_id w) id name) as [db1 lock].
  cbn [fst snd] in Hcases.
  destruct (String.eqb_spec (Name lock) name) as [Heq|Hne]; cbn.
  - destruct (save_err w), (commit_err w); cbn;
      split; try reflexivity; try discriminate; congruence.
  - destruct Hcases as [->|Hname]; [|contradiction].
    destruct (now w <? Ping lock + LOCK_TIME), (save_err w), (commit_err w);
      cbn; split; try reflexivity; try discriminate; congruence.
Qed.

(** X21. [TryLockSubmission] for a submission, that is, for an id other than
    0, never touches the lock row of another, whatever it returns. *)
Theorem TryLockSubmission_frame db w (id other : Z) (name : string) :
  id <> 0 -> other <> id ->
  fst (TryLockSubmission db w id name) !! other = db !! other.
Proof.
  intros Hid Hne. rewrite TryLockSubmission_keyed by exact Hid. cbn zeta.
  destruct (begin_err w); [reflexivity|].
  destruct (first_or_create_err w); [reflexivity|].
  destruct (negb _ && _), (save_err w), (commit_err w); cbn;
    rewrite ?lookup_insert_ne by congruence; reflexivity.
Qed.

Lemma TryLockSubmission_frame_witness :
  fst (TryLockSubmission {[8 := ("judge-b", 5)]}
         (call_tx (call_at 7 "judge-a" 60)) 7 "judge-a") !! 8
  = ({[8 := ("judge-b", 5)]} : lock_table) !! 8.
Proof.
  apply (TryLockSubmission_frame {[8 := ("judge-b", 5)]}
           (call_tx (call_at 7 "judge-a" 60)) 7 8 "judge-a"); lia.
Defined.

(** X22. For an id other than 0, [UnlockSubmission] never releases a live
    lock of another holder: it returns an error and leaves the table as it
    was. *)
Theorem UnlockSubmission_refused db w (delete_err : option error) (id : Z)
    (name holder : string) (ping : time) :
  id <> 0 ->
  db !! id = Some (holder, ping) -> holder <> name ->
  now w < ping + LOCK_TIME ->
  exists err, UnlockSubmission db w delete_err id name = (db, Some err).
Proof.
  intros Hid Hrow Hne Hlive. unfold UnlockSubmission.
  destruct (live_lock_refuses db w id name holder ping Hid Hrow Hne Hlive)
    as ([e|] & ->); eauto.
Qed.

Lemma UnlockSubmission_refused_witness :
  exists err,
    UnlockSubmission {[7 := ("judge-a", 0)]}
      (call_tx (call_at 7 "judge-b" 59)) None 7 "judge-b"
    = ({[7 := ("judge-a", 0)]}, Some err).
Proof.
  apply (UnlockSubmission_refused {[7 := ("judge-a", 0)]}
           (call_tx (call_at 7 "judge-b" 59)) None 7 "judge-b" "judge-a" 0);
    [lia|reflexivity|discriminate|vm_compute; reflexivity].
Defined.

(** X23. For an id other than 0 and without a database error,
    [UnlockSubmission] by whoever could take the lock (no row, the holder
    itself, or anyone once the lock is stale) returns no error and leaves no
    row for the submission, so that the next [TryLockSubmission] for it
    succeeds at once, whoever calls and whenever. *)
Theorem UnlockSubmission_releases db w (id : Z) (name : string) :
  id <> 0 -> no_db_error w -> claimable (db !! id) name (now w) ->
  UnlockSubmission db w None id name = (delete id db, None)
  /\ forall w' name', no_db_error w' ->
       fst (snd (TryLockSubmission (delete id db) w' id name')) = true.
Proof.
  intros Hid Hok Hclaim. unfold UnlockSubmission.
  rewrite claim_succeeds by assumption. rewrite delete_insert_eq.
  pose proof Hid as Hid'. apply Z.eqb_neq in Hid'. rewrite Hid'.
  split; [reflexivity|].
  intros w' name' Hok'.
  rewrite claim_succeeds; [reflexivity|exact Hid|exact Hok'|].
  now rewrite lookup_delete_eq.
Qed.

Lemma UnlockSubmission_releases_witness :
  UnlockSubmission {[7 := ("judge-a", 0)]}
    (call_tx (call_at 7 "judge-a" 30)) None 7 "judge-a"
  = (delete 7 {[7 := ("judge-a", 0)]}, None)
  /\ forall w' name', no_db_error w' ->
       fst (snd (TryLockSubmission (delete 7 {[7 := ("judge-a", 0)]})
                   w' 7 name')) = true.
Proof.
  apply (UnlockSubmission_releases {[7 := ("judge-a", 0)]}
           (call_tx (call_at 7 "judge-a" 30)) 7 "judge-a").
  - lia.
  - repeat split.
  - left. reflexivity.
Defined.

(** X24. For an id other than 0: when the lock is taken but its row cannot be
    deleted, [UnlockSubmission] returns the error of the deletion and the
    caller stays the holder, with the ping renewed at the time of the call. *)
Theorem UnlockSubmission_delete_fails db w (err : error) (id : Z)
    (name : string) :
  id <> 0 -> no_db_error w -> claimable (db !! id) name (now w) ->
  UnlockSubmission db w (Some err) id name
  = (<[id := (name, now w)]> db, Some err).
Proof.
  intros Hid Hok Hclaim. unfold UnlockSubmission.
  now rewrite claim_succeeds by assumption.
Qed.

Lemma UnlockSubmission_delete_fails_witness :
  UnlockSubmission {[7 := ("judge-a", 0)]}
    (call_tx (call_at 7 "judge-a" 30)) (Some "connection lost") 7 "judge-a"
  = (<[7 := ("judge-a", now (call_tx (call_at 7 "judge-a" 30)))]>
       {[7 := ("judge-a", 0)]}, Some "connection lost").
Proof.
  apply (UnlockSubmission_delete_fails {[7 := ("judge-a", 0)]}
           (call_tx (call_at 7 "judge-a" 30)) "connection lost" 7 "judge-a").
  - lia.
  - repeat split.
  - left. reflexivity.
Defined.

End MoreLockFacts.

(** ** The language table *)

Section LangTableFacts.
Import LangTable.

Lemma fill_snoc (entries : list entry) (e : entry) :
  fill (entries ++ [e]) = <[entry_ID e := entry_Lang e]> (fill entries).
Proof. unfold fill. now rewrite fold_left_app. Qed.

Lemma lookup_fill_absent (entries : list entry) (id : string) :
  (forall e, e ∈ entries -> entry_ID e <> id) -> fill entries !! id = None.
Proof.
  induction entries as [|e entries IH] using rev_ind; intros Hno;
    [apply lookup_empty|].
  rewrite fill_snoc, lookup_insert_ne.
  - apply IH. intros e' He'. apply Hno, elem_of_app. now left.
  - apply Hno, elem_of_app. right. apply list_elem_of_here.
Qed.

Lemma lookup_fill_last (pre post : list entry) (e : entry) :
  (forall e', e' ∈ post -> entry_ID e' <> entry_ID e) ->
  fill (pre ++ e :: post) !! entry_ID e = Some (entry_Lang e).
Proof.
  induction post as [|x post IH] using rev_ind; intros Hno.
  - rewrite fill_snoc. apply lookup_insert_eq.
  - change (pre ++ e :: post ++ [x]) with (pre ++ (e :: post) ++ [x]).
    rewrite app_assoc, fill_snoc, lookup_insert_ne.
    + apply IH. intros e' He'. apply Hno, elem_of_app. now left.
    + apply Hno, elem_of_app. right. apply list_elem_of_here.
Qed.

Lemma lookup_fill_present (entries : list entry) (id : string) :
  (exists e, e ∈ entries /\ entry_ID e = id) -> is_Some (fill entries !! id).
Proof.
  induction entries as [|x entries IH] using rev_ind; intros (e & He & Hid).
  - inversion He.
  - rewrite fill_snoc.
    destruct (decide (entry_ID x = id)) as [<-|Hne];
      [rewrite lookup_insert_eq; eauto|].
    rewrite lookup_insert_ne by exact Hne. apply IH.
    apply elem_of_app in He as [He|He]; [eauto|].
    apply list_elem_of_singleton in He. subst. contradiction.
Qed.

(** X25. [init] ends with a table exactly when the language file decodes and
    one of its entries has the id [checker]; otherwise the process is stopped.
    The table is then the one the loop builds. *)
Theorem init_starts_iff (decoded : error + list entry)
    (langs : gmap string Lang) :
  init decoded = Started langs <->
  exists entries,
    decoded = inr entries /\ langs = fill entries
    /\ exists e, e ∈ entries /\ entry_ID e = "checker".
Proof.
  unfold init. split.
  - destruct decoded as [err|entries]; [discriminate|].
    destruct (fill entries !! "checker") eqn:Hc; [|discriminate].
    intros [= <-]. exists entries. repeat split.
    destruct (decide (Exists (fun e => entry_ID e = "checker") entries))
      as [Hex|Hno].
    + apply Exists_exists in Hex. exact Hex.
    + rewrite lookup_fill_absent in Hc; [discriminate|].
      intros e He Hid. apply Hno, Exists_exists. eauto.
  - intros (entries & -> & -> & Hex).
    destruct (lookup_fill_present entries "checker" Hex) as (l & ->).
    reflexivity.
Qed.

(** X26. Reading the table: an id that occurs in the language file gives the
    language of its last entry (a later entry replaces an earlier one with the
    same id), and an id that does not occur gives the zero [Lang], with empty
    source name, compile command and exec command. *)
Theorem index_fill (pre post : list entry) (e : entry) :
  (forall e', e' ∈ post -> entry_ID e' <> entry_ID e) ->
  index (fill (pre ++ e :: post)) (entry_ID e) = entry_Lang e
  /\ forall id, (forall e', e' ∈ pre ++ e :: post -> entry_ID e' <> id) ->
       index (fill (pre ++ e :: post)) id = Lang_zero.
Proof.
  intros Hlast. unfold index. split.
  - now rewrite lookup_fill_last.
  - intros id Hno. now rewrite lookup_fill_absent.
Qed.

Lemma index_fill_witness :
  index (fill [ {| entry_Lang := {| Source := "a.c"; Compile := "cc a.c";
                                    Exec := "./a.out" |};
                   entry_ID := "c" |};
                {| entry_Lang := {| Source := "main.c"; Compile := "cc main.c";
                                    Exec := "./a.out" |};
                   entry_ID := "c" |};
                {| entry_Lang := {| Source := "checker.cpp";
                                    Compile := "g++ checker.cpp";
                                    Exec := "./checker" |};
                   entry_ID := "checker" |} ]) "c"
  = {| Source := "main.c"; Compile := "cc main.c"; Exec := "./a.out" |}.
Proof.
  apply (index_fill
           [ {| entry_Lang := {| Source := "a.c"; Compile := "cc a.c";
                                 Exec := "./a.out" |};
                entry_ID := "c" |} ]
           [ {| entry_Lang := {| Source := "checker.cpp";
                                 Compile := "g++ checker.cpp";
                                 Exec := "./checker" |};
                entry_ID := "checker" |} ]
           {| entry_Lang := {| Source := "main.c"; Compile := "cc main.c";
                               Exec := "./a.out" |};
              entry_ID := "c" |}).
  intros e' He'. apply list_elem_of_singleton in He'. subst. discriminate.
Defined.

End LangTableFacts.

(** ** FetchTestcaseResults *)

Section TestcasesFacts.
Import Testcases.

(** The order of Go strings, byte by byte, is transitive. *)
Lemma string_compare_le_trans (a : string) :
  forall b c : string,
  String.compare a b <> Gt -> String.compare b c <> Gt ->
  String.compare a c <> Gt.
Proof.
  induction a as [|x a IH]; intros [|y b] [|z c]; cbn;
    try congruence; try discriminate.
  unfold Ascii.compare.
  destruct (N.compare_spec (Ascii.N_of_ascii x) (Ascii.N_of_ascii y)) as [Hxy|Hxy|Hxy],
           (N.compare_spec (Ascii.N_of_ascii y) (Ascii.N_of_ascii z)) as [Hyz|Hyz|Hyz],
           (N.compare_spec (Ascii.N_of_ascii x) (Ascii.N_of_ascii z)) as [Hxz|Hxz|Hxz];
    try congruence; try discriminate; try lia.
  apply IH.
Qed.

Lemma in_order_leb (a b : SubmissionTestcaseResult) :
  in_order a b <-> String.compare (Testcase a) (Testcase b) <> Gt.
Proof.
  unfold in_order, less, String.ltb.
  rewrite (String.compare_antisym (Testcase a)).
  destruct (String.compare (Testcase b) (Testcase a)); cbn;
    split; congruence.
Qed.

#[local] Instance in_order_total : Total in_order.
Proof.
  intros a b. rewrite !in_order_leb.
  rewrite (String.compare_antisym (Testcase b)).
  destruct (String.compare (Testcase a) (Testcase b)); cbn;
    [left|left|right]; discriminate.
Qed.

#[local] Instance in_order_trans : Transitive in_order.
Proof.
  intros a b c. rewrite !in_order_leb. apply string_compare_le_trans.
Qed.

Lemma in_order_antisym (a b : SubmissionTestcaseResult) :
  in_order a b -> in_order b a -> Testcase a = Testcase b.
Proof.
  rewrite !in_order_leb, (String.compare_antisym (Testcase b)).
  destruct (String.compare (Testcase a) (Testcase b)) eqn:Hcmp; cbn;
    try congruence.
  intros _ _. now apply String.compare_eq_iff.
Qed.

(** X27. [FetchTestcaseResults] returns the rows the query found, each as
    often as it was found, ordered by test case name: no row's name is less,
    byte by byte, than the name of a row before it. An error of the query is
    returned with no rows. *)
Theorem FetchTestcaseResults_sorted
    (found : error + list SubmissionTestcaseResult) :
  match found with
  | inl err => FetchTestcaseResults found = ([], Some err)
  | inr cases =>
      exists rows,
        FetchTestcaseResults found = (rows, None)
        /\ rows ≡ₚ cases
        /\ StronglySorted (fun a b => less b a = false) rows
  end.
Proof.
  destruct found as [err|cases]; [reflexivity|].
  exists (sort_Slice cases). split; [reflexivity|]. split.
  - apply merge_sort_Permutation.
  - apply (Sorted_StronglySorted in_order), Sorted_merge_sort. apply _.
Qed.

(** X28. When the rows found have pairwise distinct test case names, as the
    rows of one submission have, the order returned is the only one possible:
    every ordering of these rows by name is the list returned, so that the
    result does not depend on how [sort.Slice] treats equal names. *)
Theorem FetchTestcaseResults_unique
    (cases rows : list SubmissionTestcaseResult) :
  NoDup (Testcase <$> cases) ->
  rows ≡ₚ cases ->
  Sorted (fun a b => less b a = false) rows ->
  fst (FetchTestcaseResults (inr cases)) = rows.
Proof.
  intros Hnodup Hperm Hsorted. cbn. symmetry.
  apply (Sorted_unique_strong in_order); [|exact Hsorted| |].
  - intros a b Ha Hb Hab Hba.
    rewrite Hperm in Ha. unfold sort_Slice in Hb.
    rewrite merge_sort_Permutation in Hb.
    pose proof (in_order_antisym a b Hab Hba) as Hname.
    clear -Hnodup Ha Hb Hname.
    induction cases as [|c cases IH]; [inversion Ha|].
    rewrite fmap_cons in Hnodup. apply NoDup_cons in Hnodup as [Hc Hnodup].
    apply elem_of_cons in Ha as [->|Ha], Hb as [->|Hb]; auto.
    + exfalso. apply Hc. rewrite Hname. now apply list_elem_of_fmap_2.
    + exfalso. apply Hc. rewrite <- Hname. now apply list_elem_of_fmap_2.
  - apply Sorted_merge_sort. apply _.
  - unfold sort_Slice. now rewrite merge_sort_Permutation.
Qed.

Lemma FetchTestcaseResults_unique_witness :
  fst (FetchTestcaseResults
         (inr [row_of_case "example_01"; row_of_case "example_00"]))
  = [row_of_case "example_00"; row_of_case "example_01"].
Proof.
  apply (FetchTestcaseResults_unique
           [row_of_case "example_01"; row_of_case "example_00"]
           [row_of_case "example_00"; row_of_case "example_01"]).
  - apply (bool_decide_eq_true_1
             (NoDup (Testcases.Testcase
                       <$> [row_of_case "example_01";
                            row_of_case "example_00"]))).
    vm_compute. reflexivity.
  - apply perm_swap.
  - repeat constructor.
Defined.

End TestcasesFacts.
